(** * ReliableMulticast: the reliable multicast data link of OpenDDS

    A shallow embedding of
    [dds/DCPS/transport/multicast/ReliableMulticast.cpp] (branch MCAST_REDUX)
    and the properties of its handshake and repair (NAK) cycle.

    The link object is a record, its member functions are programs of a
    small state monad over a [World]: the link itself, the calls the link
    makes into its collaborators (transport, logger, base class), and the
    answers of the environment to the calls whose result the code inspects
    (buffer allocation, [send_control]).  The clock is an argument of the
    two functions that read it. *)

From stdpp Require Import gmap list sorting.

Set Default Proof Using "Type".

(** ** Scalar types

    [MulticastPeer] and [MulticastSequence] are integer typedefs declared
    in headers that are not part of the sources at hand; the code only
    compares them, and the specification orders sequence numbers totally,
    so both are integers here.  An [ACE_Time_Value] is a point in time (or
    a duration) counted in microseconds. *)

Abbreviation MulticastPeer := Z (only parsing).
Abbreviation MulticastSequence := Z (only parsing).
Abbreviation ACE_Time_Value := Z (only parsing).

Local Open Scope Z_scope.

(** ** DisjointSequence: the interface the link uses

    [DisjointSequence.h] is not part of the sources.  The link uses the
    constructor from a sequence number, [update], [skip], [disjoint],
    [high], [depth], the range iterators, and, in
    [nak_request.second > sequence->second], the conversion of a tracker
    to a sequence number ([value] below). *)

Module DisjointSequence.

Class Ops (T : Type) : Type := {
  make : MulticastSequence → T;
  update : MulticastSequence → T → bool * T;
  skip : MulticastSequence → T → T;
  disjoint : T → bool;
  high : T → MulticastSequence;
  depth : T → Z;
  ranges : T → list (MulticastSequence * MulticastSequence);
  value : T → MulticastSequence
}.

End DisjointSequence.

(** ** SequenceTracker: the tracker entry of the specification *)

Module SequenceTracker.

(** Modelled from the spec: the class DisjointSequence, whose header and
    implementation are missing from the sources.  Section 3 of the
    specification describes an entry as [low], [high] and an ordered set
    [gaps] of closed ranges of sequence numbers not yet received. *)
Record t : Type := Entry {
  low : MulticastSequence;
  high : MulticastSequence;
  gaps : list (MulticastSequence * MulticastSequence)
}.

(** Modelled from the spec: the constructor of DisjointSequence; a new
    peer's baseline seeds both [low] and [high], nothing is missing. *)
Definition make (baseline : MulticastSequence) : t :=
  Entry baseline baseline [].

Definition covers (seq : MulticastSequence)
    (r : MulticastSequence * MulticastSequence) : bool :=
  (r.1 <=? seq) && (seq <=? r.2).

Definition missing (d : t) (seq : MulticastSequence) : bool :=
  existsb (covers seq) (gaps d).

(** Section 3 of the specification: the gaps are the sequence numbers
    not yet received, so a number counts as recorded once it is at or
    below [high] and in no gap. *)
Definition recorded (d : t) (seq : MulticastSequence) : bool :=
  (seq <=? high d) && negb (missing d seq).

(** Removing [seq] from one range: the range is dropped, shrunk or split. *)
Definition punch (seq : MulticastSequence)
    (r : MulticastSequence * MulticastSequence)
    : list (MulticastSequence * MulticastSequence) :=
  if covers seq r
  then (if r.1 <? seq then [(r.1, seq - 1)] else [])
       ++ (if seq <? r.2 then [(seq + 1, r.2)] else [])
  else [r].

(** Appending the range skipped over by a jump of [high]; it is merged
    into a last range that touches it. *)
Fixpoint add_gap (r : MulticastSequence * MulticastSequence)
    (gs : list (MulticastSequence * MulticastSequence))
    : list (MulticastSequence * MulticastSequence) :=
  match gs with
  | [] => [r]
  | [g] => if g.2 + 1 =? r.1 then [(g.1, r.2)] else [g; r]
  | g :: gs' => g :: add_gap r gs'
  end.

(** Modelled from the spec: DisjointSequence::update.  "Extends high if
    seq > high (creating a new gap for any numbers skipped over), removes
    or shrinks ranges in gaps covering seq, and returns whether seq had
    not already been recorded." *)
Definition update (seq : MulticastSequence) (d : t) : bool * t :=
  if high d <? seq then
    (true, Entry (low d) seq
             (if high d + 1 <=? seq - 1
              then add_gap (high d + 1, seq - 1) (gaps d) else gaps d))
  else if missing d seq then
    (true, Entry (low d) (high d) (flat_map (punch seq) (gaps d)))
  else (false, d).

(** Modelled from the spec: DisjointSequence::skip.  "Unconditionally
    advances low to floor, discarding any gap entirely below floor." *)
Definition skip (floor : MulticastSequence) (d : t) : t :=
  Entry floor (high d) (filter (λ r, floor <=? r.2) (gaps d)).

(** Modelled from the spec: DisjointSequence::disjoint, "whether gaps is
    non-empty". *)
Definition disjoint (d : t) : bool :=
  match gaps d with [] => false | _ :: _ => true end.

(** Modelled from the spec: DisjointSequence::depth, "the total count of
    sequence numbers currently missing". *)
Definition depth (d : t) : Z :=
  foldr (λ r n, (r.2 - r.1 + 1) + n) 0 (gaps d).

(** Modelled from the spec: the conversion of a DisjointSequence to a
    sequence number, which the comparison in [expire_naks] applies to
    the tracker.  It is the low-water mark: in the expiry scenario of
    section 8 an entry with mark 10 expires "while Y's tracked high is
    still 10" and [skip] is invoked, which a comparison of the mark with
    [high] never allows, since [send_naks] records [high] itself and the
    test is strict; and [send_naks] says of the mark that it "is used to
    reset the low-water mark in the event a remote peer does not
    respond".  Section 4.2 words the test with "high". *)
Definition value (d : t) : MulticastSequence := low d.

#[global] Instance ops : DisjointSequence.Ops t := {|
  DisjointSequence.make := make;
  DisjointSequence.update := update;
  DisjointSequence.skip := skip;
  DisjointSequence.disjoint := disjoint;
  DisjointSequence.high := high;
  DisjointSequence.depth := depth;
  DisjointSequence.ranges := gaps;
  DisjointSequence.value := value
|}.

(** The part of the entry's invariant that [update] relies on: every gap
    lies strictly below [high]. *)
Definition bounded (d : t) : Prop :=
  Forall (λ r, r.2 < high d) (gaps d).

End SequenceTracker.

(** ** Messages and headers *)

(** The body of a control message, as the sequence of the values written
    by a [TAO::DCPS::Serializer]; the byte layout of each value and the
    byte swapping are the serializer's business. *)
Abbreviation ACE_Message_Block := (list Z) (only parsing).

(** The fields of a [TransportHeader] that the link reads. *)
Record TransportHeader : Type := {
  source_ : MulticastPeer;
  sequence_ : MulticastSequence
}.

#[global] Instance TransportHeader_eq_dec : EqDecision TransportHeader.
Proof. solve_decision. Defined.

(** The message kinds [sample_received] tells apart; every other value of
    [message_id_] takes the [default] branch. *)
Inductive MessageId : Type :=
| TRANSPORT_CONTROL
| SAMPLE_ACK
| OTHER_MESSAGE (id : Z).

Inductive SubMessageId : Type :=
| MULTICAST_SYN
| MULTICAST_SYNACK
| MULTICAST_NAK
| MULTICAST_NAKACK
| OTHER_SUBMESSAGE (id : Z).

Record DataSampleHeader : Type := {
  message_id_ : MessageId;
  submessage_id_ : SubMessageId
}.

Record ReceivedDataSample : Type := {
  header_ : DataSampleHeader;
  sample_ : ACE_Message_Block
}.

(** What [create_control] returns: a control sample of the given kind
    around the serialized data. *)
Record ControlMessage : Type := create_control {
  control_id : SubMessageId;
  control_data : ACE_Message_Block
}.

Record MulticastConfiguration : Type := {
  nak_interval_ : ACE_Time_Value;
  nak_timeout_ : ACE_Time_Value;
  syn_interval_ : ACE_Time_Value;
  syn_timeout_ : ACE_Time_Value
}.

(** ** Calls out of the link *)

Inductive ACE_Log_Priority : Type := LM_WARNING | LM_ERROR.

Inductive Sender : Type := in_send_syn | in_send_synack | in_send_nak.

(** One constructor per [ACE_ERROR] of the file. *)
Inductive LogText : Type :=
| timed_out_handshaking (remote_peer : MulticastPeer)
| unknown_submessage (id : SubMessageId)
| failed_to_find_sequence (remote_peer : MulticastPeer)
| skipping_datagrams (depth : Z) (remote_peer : MulticastPeer)
| failed_to_allocate (site : Sender)
| send_control_failed (site : Sender) (error : Z)
| null_reactor
| failed_to_schedule_nak
| failed_to_schedule_syn.

Inductive Call : Type :=
| ACE_ERROR (priority : ACE_Log_Priority) (text : LogText)
| call_send_control (message : ControlMessage)
| call_check_fully_association
| call_ack_received (sample : ReceivedDataSample)
| call_data_received (sample : ReceivedDataSample).

(** The control messages handed to [send_control], oldest first. *)
Definition sent (cs : list Call) : list ControlMessage :=
  omap (λ c, match c with call_send_control m => Some m | _ => None end) cs.

(** The tracker changes announced in the log: [expire_naks] writes one
    "skipping" warning right before each [skip]. *)
Definition skips (cs : list Call) : list (Z * MulticastPeer) :=
  omap (λ c, match c with
             | ACE_ERROR _ (skipping_datagrams n p) => Some (n, p)
             | _ => None
             end) cs.

(** ** The repair ledger

    [NakHistory] is a [std::multimap] from the time of a request to the
    [NakRequest] (peer, high-water mark): a list kept in ascending order of
    time, entries of equal time in order of insertion. *)

Abbreviation NakRequest := (MulticastPeer * MulticastSequence)%type (only parsing).
Abbreviation NakHistory := (list (ACE_Time_Value * NakRequest)) (only parsing).

(** [nak_history_.insert(value)]: behind every entry that is not later. *)
Fixpoint nak_history_insert (e : ACE_Time_Value * NakRequest)
    (h : NakHistory) : NakHistory :=
  match h with
  | [] => [e]
  | x :: h' =>
      if e.1 <? x.1 then e :: x :: h' else x :: nak_history_insert e h'
  end.

(** The range [[begin(), upper_bound(deadline))] and what lies behind it:
    [upper_bound] stops at the first entry later than [deadline]. *)
Fixpoint upper_bound (deadline : ACE_Time_Value) (h : NakHistory)
    : NakHistory * NakHistory :=
  match h with
  | [] => ([], [])
  | x :: h' =>
      if deadline <? x.1 then ([], x :: h')
      else let '(expired, rest) := upper_bound deadline h' in
           (x :: expired, rest)
  end.

(** The order of the multimap. *)
Definition ledger_sorted (h : NakHistory) : Prop :=
  Sorted (λ x y, x.1 ≤ y.1) h.

(** ** The link object *)

(** Modelled from the spec: the state of a [DataLinkWatchdog], whose
    template is not part of the sources; section 2 describes a watchdog
    as a cancellable timer: [schedule] arms it, [cancel] disarms it. *)
Inductive Watchdog : Type := idle | scheduled.

Section Link.

Context {DS : Type} `{!DisjointSequence.Ops DS}.

(** [SequenceMap] is a [std::map] from peer to tracker. *)
Record ReliableMulticast : Type := {
  config_ : MulticastConfiguration;
  local_peer_ : MulticastPeer;
  remote_peer_ : MulticastPeer;
  acked_ : bool;
  nak_watchdog_ : Watchdog;
  syn_watchdog_ : Watchdog;
  recvd_header_ : TransportHeader;
  sequences_ : gmap Z DS;
  nak_history_ : NakHistory
}.

Definition set_acked (b : bool) (l : ReliableMulticast) :=
  {| config_ := config_ l; local_peer_ := local_peer_ l;
     remote_peer_ := remote_peer_ l; acked_ := b;
     nak_watchdog_ := nak_watchdog_ l; syn_watchdog_ := syn_watchdog_ l;
     recvd_header_ := recvd_header_ l; sequences_ := sequences_ l;
     nak_history_ := nak_history_ l |}.

Definition set_nak_watchdog (x : Watchdog) (l : ReliableMulticast) :=
  {| config_ := config_ l; local_peer_ := local_peer_ l;
     remote_peer_ := remote_peer_ l; acked_ := acked_ l;
     nak_watchdog_ := x; syn_watchdog_ := syn_watchdog_ l;
     recvd_header_ := recvd_header_ l; sequences_ := sequences_ l;
     nak_history_ := nak_history_ l |}.

Definition set_syn_watchdog (x : Watchdog) (l : ReliableMulticast) :=
  {| config_ := config_ l; local_peer_ := local_peer_ l;
     remote_peer_ := remote_peer_ l; acked_ := acked_ l;
     nak_watchdog_ := nak_watchdog_ l; syn_watchdog_ := x;
     recvd_header_ := recvd_header_ l; sequences_ := sequences_ l;
     nak_history_ := nak_history_ l |}.

Definition set_recvd_header (h : TransportHeader) (l : ReliableMulticast) :=
  {| config_ := config_ l; local_peer_ := local_peer_ l;
     remote_peer_ := remote_peer_ l; acked_ := acked_ l;
     nak_watchdog_ := nak_watchdog_ l; syn_watchdog_ := syn_watchdog_ l;
     recvd_header_ := h; sequences_ := sequences_ l;
     nak_history_ := nak_history_ l |}.

Definition set_sequences (m : gmap Z DS) (l : ReliableMulticast) :=
  {| config_ := config_ l; local_peer_ := local_peer_ l;
     remote_peer_ := remote_peer_ l; acked_ := acked_ l;
     nak_watchdog_ := nak_watchdog_ l; syn_watchdog_ := syn_watchdog_ l;
     recvd_header_ := recvd_header_ l; sequences_ := m;
     nak_history_ := nak_history_ l |}.

Definition set_nak_history (h : NakHistory) (l : ReliableMulticast) :=
  {| config_ := config_ l; local_peer_ := local_peer_ l;
     remote_peer_ := remote_peer_ l; acked_ := acked_ l;
     nak_watchdog_ := nak_watchdog_ l; syn_watchdog_ := syn_watchdog_ l;
     recvd_header_ := recvd_header_ l; sequences_ := sequences_ l;
     nak_history_ := h |}.

(** ** The world and the monad of member functions

    [allocations] holds the outcomes of the coming [ACE_NEW_NORETURN]
    ([false]: the pointer is null), [statuses] the values the coming
    calls of [send_control] return ([Some error]: a status other than
    [SEND_CONTROL_OK]).  Past the end of either list the environment no
    longer fails. *)
Record World : Type := {
  link : ReliableMulticast;
  calls : list Call;
  allocations : list bool;
  statuses : list (option Z)
}.

(** [None]: the source reads a variable that was never written (a
    serializer ran past the end of its message block); C++ gives that no
    meaning. *)
Definition M (A : Type) : Type := World → option (A * World).

#[global] Instance M_ret : MRet M := λ A a w, Some (a, w).

#[global] Instance M_bind : MBind M := λ A B f m w,
  match m w with
  | Some (a, w') => f a w'
  | None => None
  end.

Definition undefined {A : Type} : M A := λ _, None.

Definition this : M ReliableMulticast := λ w, Some (link w, w).

Definition assign (f : ReliableMulticast → ReliableMulticast) : M unit :=
  λ w, Some (tt, {| link := f (link w); calls := calls w;
                    allocations := allocations w; statuses := statuses w |}).

Definition call (c : Call) : M unit :=
  λ w, Some (tt, {| link := link w; calls := calls w ++ [c];
                    allocations := allocations w; statuses := statuses w |}).

(** [ACE_NEW_NORETURN(data, ACE_Message_Block(len))]; the result tells
    whether [data] is non-null. *)
Definition ACE_NEW_NORETURN : M bool :=
  λ w, match allocations w with
       | [] => Some (true, w)
       | ok :: rest =>
           Some (ok, {| link := link w; calls := calls w;
                        allocations := rest; statuses := statuses w |})
       end.

(** [send_control(message)]: the call is made, its status comes from the
    environment. *)
Definition next_status : M (option Z) :=
  λ w, match statuses w with
       | [] => Some (None, w)
       | st :: rest =>
           Some (st, {| link := link w; calls := calls w;
                        allocations := allocations w; statuses := rest |})
       end.

Definition send_control (message : ControlMessage) : M (option Z) :=
  call (call_send_control message);; next_status.

(** [serializer >> x] *)
Definition extract (serializer : ACE_Message_Block)
    : M (Z * ACE_Message_Block) :=
  match serializer with
  | [] => undefined
  | x :: rest => mret (x, rest)
  end.

Fixpoint for_each {A : Type} (body : A → M unit) (l : list A) : M unit :=
  match l with
  | [] => mret tt
  | x :: l' => body x;; for_each body l'
  end.

(** The elements of a [SequenceMap] in the order of its iterators:
    ascending peer. *)
Definition by_peer : relation (MulticastPeer * DS) := λ x y, x.1 ≤ y.1.

#[global] Instance by_peer_dec : RelDecision by_peer.
Proof. intros x y. unfold by_peer. apply _. Defined.

Definition elements (m : gmap Z DS) : list (MulticastPeer * DS) :=
  merge_sort by_peer (map_to_list m).

(** ** The member functions *)

(** The constructor; [header] is the value of a default constructed
    [TransportHeader], [config] the configuration of the transport. *)
Definition ReliableMulticast_ (config : MulticastConfiguration)
    (header : TransportHeader) (local_peer remote_peer : MulticastPeer)
    : ReliableMulticast :=
  {| config_ := config; local_peer_ := local_peer;
     remote_peer_ := remote_peer; acked_ := false;
     nak_watchdog_ := idle; syn_watchdog_ := idle;
     recvd_header_ := header; sequences_ := ∅; nak_history_ := [] |}.

Definition header_received (header : TransportHeader) : M bool :=
  assign (set_recvd_header header);;
  l ← this;
  match sequences_ l !! source_ header with
  | None => mret true
  | Some d =>
      let r := DisjointSequence.update (sequence_ header) d in
      assign (set_sequences (<[source_ header := r.2]> (sequences_ l)));;
      mret r.1
  end.

(** The framing layer hands in the header of every datagram, in the
    order of arrival; the answers are collected in that order. *)
Fixpoint headers_received (headers : list TransportHeader) : M (list bool) :=
  match headers with
  | [] => mret []
  | header :: headers' =>
      accepted ← header_received header;
      answers ← headers_received headers';
      mret (accepted :: answers)
  end.

Definition acked : M bool :=
  l ← this; mret (acked_ l).

(** One turn of the loop of [expire_naks]. *)
Definition expire_nak (entry : ACE_Time_Value * NakRequest) : M unit :=
  let nak_request := entry.2 in
  l ← this;
  match sequences_ l !! nak_request.1 with
  | None =>
      call (ACE_ERROR LM_ERROR (failed_to_find_sequence nak_request.1))
  | Some d =>
      if DisjointSequence.value d <? nak_request.2 then
        call (ACE_ERROR LM_WARNING
                (skipping_datagrams (DisjointSequence.depth d) nak_request.1));;
        assign (set_sequences
                  (<[nak_request.1 := DisjointSequence.skip nak_request.2 d]>
                     (sequences_ l)))
      else mret tt
  end.

Definition expire_naks (now : ACE_Time_Value) : M unit :=
  l ← this;
  let deadline := now - nak_timeout_ (config_ l) in
  let range := upper_bound deadline (nak_history_ l) in
  match range.1 with
  | [] => mret tt
  | _ :: _ =>
      for_each expire_nak range.1;;
      assign (set_nak_history range.2)
  end.

Definition send_nak (remote_peer : MulticastPeer)
    (low high : MulticastSequence) : M unit :=
  ACE_NEW_NORETURN ≫= λ data : bool,
  if data then
    l ← this;
    let serializer := [local_peer_ l; remote_peer; low; high] in
    error ← send_control (create_control MULTICAST_NAK serializer);
    match error with
    | None => mret tt
    | Some e => call (ACE_ERROR LM_ERROR (send_control_failed in_send_nak e))
    end
  else call (ACE_ERROR LM_ERROR (failed_to_allocate in_send_nak)).

(** One turn of the outer loop of [send_naks]. *)
Definition send_naks_to (now : ACE_Time_Value) (it : MulticastPeer * DS)
    : M unit :=
  if DisjointSequence.disjoint it.2 then
    assign (λ l, set_nak_history
              (nak_history_insert
                 (now, (it.1, DisjointSequence.high it.2))
                 (nak_history_ l)) l);;
    for_each (λ range, send_nak it.1 range.1 range.2)
             (DisjointSequence.ranges it.2)
  else mret tt.

Definition send_naks (now : ACE_Time_Value) : M unit :=
  l ← this;
  for_each (send_naks_to now) (elements (sequences_ l)).

Definition send_synack (remote_peer : MulticastPeer) : M unit :=
  ACE_NEW_NORETURN ≫= λ data : bool,
  if data then
    l ← this;
    let serializer := [local_peer_ l; remote_peer] in
    error ← send_control (create_control MULTICAST_SYNACK serializer);
    match error with
    | None => mret tt
    | Some e =>
        call (ACE_ERROR LM_ERROR (send_control_failed in_send_synack e))
    end
  else call (ACE_ERROR LM_ERROR (failed_to_allocate in_send_synack)).

(** [std::map::insert] leaves the map alone when the key is present. *)
Definition sequences_insert (peer : MulticastPeer) (d : DS)
    (m : gmap Z DS) : gmap Z DS :=
  match m !! peer with
  | Some _ => m
  | None => <[peer := d]> m
  end.

Definition syn_received (message : ACE_Message_Block) : M unit :=
  let serializer := message in
  '(remote_peer, serializer) ← extract serializer;
  '(local_peer, serializer) ← extract serializer;
  l ← this;
  if bool_decide (local_peer ≠ local_peer_ l) then mret tt
  else
    assign (set_sequences
              (sequences_insert remote_peer
                 (DisjointSequence.make (sequence_ (recvd_header_ l)))
                 (sequences_ l)));;
    send_synack remote_peer.

Definition send_syn : M unit :=
  ACE_NEW_NORETURN ≫= λ data : bool,
  if data then
    l ← this;
    let serializer := [local_peer_ l; remote_peer_ l] in
    error ← send_control (create_control MULTICAST_SYN serializer);
    match error with
    | None => mret tt
    | Some e => call (ACE_ERROR LM_ERROR (send_control_failed in_send_syn e))
    end
  else call (ACE_ERROR LM_ERROR (failed_to_allocate in_send_syn)).

Definition synack_received (message : ACE_Message_Block) : M unit :=
  let serializer := message in
  '(remote_peer, serializer) ← extract serializer;
  '(local_peer, serializer) ← extract serializer;
  l ← this;
  if bool_decide (local_peer ≠ local_peer_ l) then mret tt
  else
    assign (set_syn_watchdog idle);;
    assign (set_acked true);;
    call call_check_fully_association.

(** [// TODO implement] *)
Definition nak_received (message : ACE_Message_Block) : M unit :=
  mret tt.

(** [// TODO implement] *)
Definition nakack_received (message : ACE_Message_Block) : M unit :=
  mret tt.

(** [// TODO implement] *)
Definition send_nakack (remote_peer : MulticastPeer)
    (low high : MulticastSequence) : M unit :=
  mret tt.

Definition sample_received (sample : ReceivedDataSample) : M unit :=
  match message_id_ (header_ sample) with
  | TRANSPORT_CONTROL =>
      let message := sample_ sample in
      match submessage_id_ (header_ sample) with
      | MULTICAST_SYN => syn_received message
      | MULTICAST_SYNACK => synack_received message
      | MULTICAST_NAK => nak_received message
      | MULTICAST_NAKACK => nakack_received message
      | OTHER_SUBMESSAGE id =>
          call (ACE_ERROR LM_WARNING
                  (unknown_submessage (submessage_id_ (header_ sample))))
      end
  | SAMPLE_ACK => call (call_ack_received sample)
  | OTHER_MESSAGE _ => call (call_data_received sample)
  end.

(** [join_i]: [reactor] tells whether [get_reactor()] is non-null,
    [nak_ok] and [syn_ok] what [schedule] returns for either watchdog. *)
Definition join_i (reactor nak_ok syn_ok active : bool) : M bool :=
  if negb reactor then
    call (ACE_ERROR LM_ERROR null_reactor);; mret false
  else if negb nak_ok then
    call (ACE_ERROR LM_ERROR failed_to_schedule_nak);; mret false
  else
    assign (set_nak_watchdog scheduled);;
    if active then
      if negb syn_ok then
        assign (set_nak_watchdog idle);;
        call (ACE_ERROR LM_ERROR failed_to_schedule_syn);; mret false
      else assign (set_syn_watchdog scheduled);; mret true
    else mret true.

Definition leave_i : M unit :=
  assign (set_syn_watchdog idle);;
  assign (set_nak_watchdog idle).

(** The callbacks of the two watchdogs. *)
Definition NakWatchdog_next_interval : M ACE_Time_Value :=
  l ← this; mret (nak_interval_ (config_ l)).

Definition SynWatchdog_next_interval : M ACE_Time_Value :=
  l ← this; mret (syn_interval_ (config_ l)).

Definition SynWatchdog_next_timeout : M ACE_Time_Value :=
  l ← this; mret (syn_timeout_ (config_ l)).

Definition NakWatchdog_on_interval (now now' : ACE_Time_Value) : M unit :=
  expire_naks now;; send_naks now'.

Definition SynWatchdog_on_interval : M unit := send_syn.

Definition SynWatchdog_on_timeout : M unit :=
  l ← this;
  call (ACE_ERROR LM_ERROR (timed_out_handshaking (remote_peer_ l))).

(** ** The operations of a session

    Every member function defined in the file, with the arguments the
    caller or the environment supplies. *)

Inductive Operation : Type :=
| op_header_received (header : TransportHeader)
| op_sample_received (sample : ReceivedDataSample)
| op_acked
| op_expire_naks (now : ACE_Time_Value)
| op_send_naks (now : ACE_Time_Value)
| op_syn_received (message : ACE_Message_Block)
| op_send_syn
| op_synack_received (message : ACE_Message_Block)
| op_send_synack (remote_peer : MulticastPeer)
| op_nak_received (message : ACE_Message_Block)
| op_send_nak (remote_peer : MulticastPeer) (low high : MulticastSequence)
| op_nakack_received (message : ACE_Message_Block)
| op_send_nakack (remote_peer : MulticastPeer) (low high : MulticastSequence)
| op_join_i (reactor nak_ok syn_ok active : bool)
| op_leave_i
| op_nak_on_interval (now now' : ACE_Time_Value)
| op_syn_on_interval
| op_syn_on_timeout
| op_nak_next_interval
| op_syn_next_interval
| op_syn_next_timeout.

Definition run (op : Operation) : M unit :=
  match op with
  | op_header_received header => header_received header;; mret tt
  | op_sample_received sample => sample_received sample
  | op_acked => acked;; mret tt
  | op_expire_naks now => expire_naks now
  | op_send_naks now => send_naks now
  | op_syn_received message => syn_received message
  | op_send_syn => send_syn
  | op_synack_received message => synack_received message
  | op_send_synack remote_peer => send_synack remote_peer
  | op_nak_received message => nak_received message
  | op_send_nak remote_peer low high => send_nak remote_peer low high
  | op_nakack_received message => nakack_received message
  | op_send_nakack remote_peer low high => send_nakack remote_peer low high
  | op_join_i reactor nak_ok syn_ok active =>
      join_i reactor nak_ok syn_ok active;; mret tt
  | op_leave_i => leave_i
  | op_nak_on_interval now now' => NakWatchdog_on_interval now now'
  | op_syn_on_interval => SynWatchdog_on_interval
  | op_syn_on_timeout => SynWatchdog_on_timeout
  | op_nak_next_interval => NakWatchdog_next_interval;; mret tt
  | op_syn_next_interval => SynWatchdog_next_interval;; mret tt
  | op_syn_next_timeout => SynWatchdog_next_timeout;; mret tt
  end.

Definition run_all (ops : list Operation) : M unit := for_each run ops.

(** Whether the next buffer allocation succeeds, and whether all coming
    ones do. *)
Definition allocates (w : World) : bool :=
  match allocations w with
  | false :: _ => false
  | _ => true
  end.

Definition never_exhausted (w : World) : bool :=
  forallb (λ ok : bool, ok) (allocations w).

(** The handshake acknowledgements addressed to the link: an operation
    that delivers a [MULTICAST_SYNACK] whose second field is the local
    peer. *)
Definition delivers_synack (local_peer : MulticastPeer) (op : Operation)
    : Prop :=
  ∃ remote_peer rest,
    let message := remote_peer :: local_peer :: rest in
    op = op_synack_received message
    ∨ op = op_sample_received
             {| header_ := {| message_id_ := TRANSPORT_CONTROL;
                              submessage_id_ := MULTICAST_SYNACK |};
                sample_ := message |}.

(** ** The expiry policy

    For the expired entries in the order of the ledger: a peer that is
    tracked and whose tracker still converts to a sequence number below
    the mark of the entry is skipped to that mark; nothing else
    changes. *)

Inductive expiry_policy : gmap Z DS → NakHistory → gmap Z DS → Prop :=
| expiry_done m :
    expiry_policy m [] m
| expiry_skip m time peer mark d entries m' :
    m !! peer = Some d →
    DisjointSequence.value d < mark →
    expiry_policy (<[peer := DisjointSequence.skip mark d]> m) entries m' →
    expiry_policy m ((time, (peer, mark)) :: entries) m'
| expiry_keep m time peer mark d entries m' :
    m !! peer = Some d →
    ¬ DisjointSequence.value d < mark →
    expiry_policy m entries m' →
    expiry_policy m ((time, (peer, mark)) :: entries) m'
| expiry_unknown m time peer mark entries m' :
    m !! peer = None →
    expiry_policy m entries m' →
    expiry_policy m ((time, (peer, mark)) :: entries) m'.

(** The ledger entry of one peer at time [now]. *)
Definition request_of (now : ACE_Time_Value) (it : MulticastPeer * DS)
    : ACE_Time_Value * NakRequest :=
  (now, (it.1, DisjointSequence.high it.2)).

(** The repair requests of one peer, one per range. *)
Definition naks_of (local_peer : MulticastPeer) (it : MulticastPeer * DS)
    : list ControlMessage :=
  map (λ range, create_control MULTICAST_NAK
                  [local_peer; it.1; range.1; range.2])
      (DisjointSequence.ranges it.2).

End Link.

(** ** The environment of the send functions

    Each of [send_syn], [send_synack] and [send_nak] asks for one buffer
    and, when it got one, calls [send_control] once.  [granted] picks,
    out of the messages a run of such calls tries to send, those whose
    buffer is allocated: the [k]-th message is dropped exactly when the
    [k]-th coming allocation fails. *)
Fixpoint granted {A : Type} (allocations : list bool) (ms : list A)
    : list A :=
  match ms with
  | [] => []
  | m :: ms' =>
      match allocations with
      | false :: rest => granted rest ms'
      | _ => m :: granted (tail allocations) ms'
      end
  end.

(** The calls that sending [ms] from [site] adds, and what is left of
    the answers of the environment: an allocation error for a message
    without buffer; for the others the call of [send_control], followed
    by an error when its status is not [SEND_CONTROL_OK]. *)
Fixpoint send_all (site : Sender) (allocations : list bool)
    (statuses : list (option Z)) (ms : list ControlMessage)
    : list Call * (list bool * list (option Z)) :=
  match ms with
  | [] => ([], (allocations, statuses))
  | m :: ms' =>
      match allocations with
      | false :: rest =>
          let r := send_all site rest statuses ms' in
          (ACE_ERROR LM_ERROR (failed_to_allocate site) :: r.1, r.2)
      | _ =>
          match statuses with
          | Some e :: later =>
              let r := send_all site (tail allocations) later ms' in
              (call_send_control m
               :: ACE_ERROR LM_ERROR (send_control_failed site e) :: r.1,
               r.2)
          | _ =>
              let r := send_all site (tail allocations) (tail statuses) ms' in
              (call_send_control m :: r.1, r.2)
          end
      end
  end.

(** The allocation errors of a log. *)
Definition allocation_failures (cs : list Call) : list Sender :=
  omap (λ c, match c with
             | ACE_ERROR LM_ERROR (failed_to_allocate site) => Some site
             | _ => None
             end) cs.

(** The peer a control message is addressed to: its second field. *)
Definition addressed_to (peer : MulticastPeer) (m : ControlMessage) : Prop :=
  control_data m !! 1%nat = Some peer.

#[global] Instance addressed_to_dec peer m : Decision (addressed_to peer m).
Proof. unfold addressed_to. apply _. Defined.

(** The ledger entries of a peer. *)
Definition requested_of (peer : MulticastPeer)
    (e : ACE_Time_Value * NakRequest) : Prop :=
  e.2.1 = peer.

#[global] Instance requested_of_dec peer e : Decision (requested_of peer e).
Proof. unfold requested_of. apply _. Defined.

(** Every tracker of a session over the tracker of the specification
    keeps its gaps below [high]. *)
Definition trackers_bounded (w : World (DS := SequenceTracker.t)) : Prop :=
  map_Forall (λ _ d, SequenceTracker.bounded d) (sequences_ (link w)).

(** ** Observations on a session *)

(** The peers for which [expire_naks] logged "failed to find sequence". *)
Definition missing_sequences (cs : list Call) : list MulticastPeer :=
  omap (λ c, match c with
             | ACE_ERROR _ (failed_to_find_sequence p) => Some p
             | _ => None
             end) cs.

(** One element per call of [check_fully_association]. *)
Definition notifications (cs : list Call) : list unit :=
  omap (λ c, match c with
             | call_check_fully_association => Some tt
             | _ => None
             end) cs.

(** The calls a send function can make: [send_control], and the two
    errors it logs. *)
Definition sending_call (c : Call) : Prop :=
  match c with
  | call_send_control _
  | ACE_ERROR LM_ERROR (failed_to_allocate _)
  | ACE_ERROR LM_ERROR (send_control_failed _ _) => True
  | _ => False
  end.

(** Modelled from the spec: the transport between two links, which is
    not part of the file.  Sections 4.5 and 6 route a control message by
    kind and submessage kind: what [create_control] built arrives as a
    [TRANSPORT_CONTROL] sample of the same submessage kind and body. *)
Definition deliver (m : ControlMessage) : ReceivedDataSample :=
  {| header_ := {| message_id_ := TRANSPORT_CONTROL;
                   submessage_id_ := control_id m |};
     sample_ := control_data m |}.

(** The handshake requests addressed to the link: an operation that
    delivers a [MULTICAST_SYN] of [remote_peer] whose second field is the
    local peer. *)
Definition delivers_syn (local_peer remote_peer : MulticastPeer)
    (op : Operation) : Prop :=
  ∃ rest,
    let message := remote_peer :: local_peer :: rest in
    op = op_syn_received message
    ∨ op = op_sample_received
             {| header_ := {| message_id_ := TRANSPORT_CONTROL;
                              submessage_id_ := MULTICAST_SYN |};
                sample_ := message |}.

(** The control messages the link builds itself: a handshake request, a
    handshake acknowledgement or a repair request whose first field is
    the local peer. *)
Definition own_message (local_peer : MulticastPeer) (m : ControlMessage)
    : Prop :=
  match control_id m with
  | MULTICAST_SYN | MULTICAST_SYNACK | MULTICAST_NAK =>
      head (control_data m) = Some local_peer
  | _ => False
  end.

Section Observations.

Context {DS : Type} `{!DisjointSequence.Ops DS}.

(** Every outstanding repair request names a peer of the sequence map. *)
Definition ledger_tracked (w : World (DS := DS)) : Prop :=
  Forall (λ e : ACE_Time_Value * NakRequest,
            e.2.1 ∈ dom (sequences_ (link w)))
         (nak_history_ (link w)).

(** The number of trackers that report gaps. *)
Definition disjoint_peers (w : World (DS := DS)) : nat :=
  length (filter (λ it : MulticastPeer * DS,
                    DisjointSequence.disjoint it.2 = true)
                 (elements (sequences_ (link w)))).

End Observations.

(** ** A session to compute with *)

Module Example.

Definition config : MulticastConfiguration :=
  {| nak_interval_ := 1; nak_timeout_ := 3;
     syn_interval_ := 1; syn_timeout_ := 5 |}.

(** The link of peer 1, created for the remote peer 2. *)
Definition fresh : ReliableMulticast (DS := SequenceTracker.t) :=
  ReliableMulticast_ config {| source_ := 0; sequence_ := 0 |} 1 2.

(** The link of peer 2, created for the remote peer 1. *)
Definition passive : ReliableMulticast (DS := SequenceTracker.t) :=
  ReliableMulticast_ config {| source_ := 0; sequence_ := 0 |} 2 1.

Definition world (l : ReliableMulticast (DS := SequenceTracker.t))
    : World :=
  {| link := l; calls := []; allocations := []; statuses := [] |}.

(** Peer 2 is tracked from 5 up to 9 with 6..8 missing. *)
Definition tracker : SequenceTracker.t :=
  {| SequenceTracker.low := 5; SequenceTracker.high := 9;
     SequenceTracker.gaps := [(6, 8)] |}.

Definition tracking : ReliableMulticast (DS := SequenceTracker.t) :=
  set_sequences {[ 2 := tracker ]} fresh.

(** The same session when the next buffer allocation fails. *)
Definition exhausted : World :=
  {| link := tracking; calls := []; allocations := [false];
     statuses := [] |}.

(** Peer 2 misses 6 and 8. *)
Definition scattered : ReliableMulticast (DS := SequenceTracker.t) :=
  set_sequences
    {[ 2 := {| SequenceTracker.low := 5; SequenceTracker.high := 9;
               SequenceTracker.gaps := [(6, 6); (8, 8)] |} ]} fresh.

(** The same when the next buffer allocation fails. *)
Definition starved : World :=
  {| link := scattered; calls := []; allocations := [false];
     statuses := [] |}.

(** A session of the fresh link: peer 2 shakes hands under a header of
    sequence number 0, its datagram of number 10 arrives, and the
    request phase runs at time 4; then the peer is silent. *)
Definition silence : list Operation :=
  [op_syn_received [2; 1];
   op_header_received {| source_ := 2; sequence_ := 10 |};
   op_send_naks 4].

Definition silent : World :=
  match run_all silence (world fresh) with
  | Some (_, w) => w
  | None => world fresh
  end.

(** The session with two repair requests outstanding: one of time 4
    with mark 12, one of time 10 with mark 14. *)
Definition repairing : ReliableMulticast (DS := SequenceTracker.t) :=
  set_nak_history [(4, (2, 12)); (10, (2, 14))] tracking.

End Example.

(** * Properties *)

Ltac exec :=
  cbv [mbind M_bind mret M_ret this assign call undefined extract
       ACE_NEW_NORETURN send_control next_status] in *; simpl in *.

Ltac crunch :=
  intros; exec; repeat case_match; simplify_eq; simpl in *; try done.

Ltac members :=
  unfold SynWatchdog_on_interval, SynWatchdog_on_timeout,
    NakWatchdog_next_interval, SynWatchdog_next_interval,
    SynWatchdog_next_timeout, header_received, acked, syn_received,
    synack_received, send_syn, send_synack, send_nak, nak_received,
    nakack_received, send_nakack, join_i, leave_i in *.

Lemma sent_app (cs cs' : list Call) : sent (cs ++ cs') = sent cs ++ sent cs'.
Proof. unfold sent. apply omap_app. Qed.

Lemma skips_app (cs cs' : list Call) :
  skips (cs ++ cs') = skips cs ++ skips cs'.
Proof. unfold skips. apply omap_app. Qed.

Section Handshake.

Context {DS : Type} `{!DisjointSequence.Ops DS}.
Implicit Types (w : World (DS := DS)) (l : ReliableMulticast (DS := DS)).


(** What [send_synack] does to a world: with a buffer the
    acknowledgement goes to [send_control], without one the failure is
    logged and nothing is sent. *)
Lemma send_synack_run remote_peer w :
  ∃ w', send_synack remote_peer w = Some (tt, w')
    ∧ link w' = link w
    ∧ sent (calls w') =
      sent (calls w)
      ++ (if allocates w
          then [create_control MULTICAST_SYNACK
                  [local_peer_ (link w); remote_peer]]
          else [])
    ∧ (allocates w = false →
       calls w' =
       calls w ++ [ACE_ERROR LM_ERROR (failed_to_allocate in_send_synack)]).
Proof.
  unfold send_synack, allocates. exec.
  destruct (allocations w) as [|[] ?]; simpl;
    try destruct (statuses w) as [|[?|] ?]; simpl;
    eexists; (split; [reflexivity|]); simpl; (split; [done|]);
    rewrite ?sent_app; simpl; rewrite ?app_nil_r; done.
Qed.

Lemma syn_received_run remote_peer rest w :
  syn_received (remote_peer :: local_peer_ (link w) :: rest) w =
  send_synack remote_peer
    {| link := set_sequences
                 (sequences_insert remote_peer
                    (DisjointSequence.make (sequence_ (recvd_header_ (link w))))
                    (sequences_ (link w))) (link w);
       calls := calls w; allocations := allocations w;
       statuses := statuses w |}.
Proof.
  unfold syn_received. exec.
  rewrite bool_decide_eq_false_2 by (intros Hne; by apply Hne). done.
Qed.

(** C8.  A handshake request or a handshake acknowledgement whose
    destination field is not the local peer is ignored: the handler
    returns the world it was given, so the sequence map, the ledger, the
    acknowledged flag and the watchdogs are as before and nothing was
    sent or logged.  This holds for the handlers and for their dispatch
    through [sample_received]. *)
Theorem misaddressed_handshake_ignored w remote_peer local_peer rest :
  local_peer ≠ local_peer_ (link w) →
  let message := remote_peer :: local_peer :: rest in
  let control id :=
    {| header_ := {| message_id_ := TRANSPORT_CONTROL;
                     submessage_id_ := id |};
       sample_ := message |} in
  syn_received message w = Some (tt, w)
  ∧ synack_received message w = Some (tt, w)
  ∧ sample_received (control MULTICAST_SYN) w = Some (tt, w)
  ∧ sample_received (control MULTICAST_SYNACK) w = Some (tt, w).
Proof.
  intros Hne message control.
  assert (syn_received message w = Some (tt, w)) as Hsyn.
  { unfold syn_received. exec. by rewrite bool_decide_eq_true_2. }
  assert (synack_received message w = Some (tt, w)) as Hack.
  { unfold synack_received. exec. by rewrite bool_decide_eq_true_2. }
  done.
Qed.



End Handshake.

(** ** The tracker of the specification *)

Module SequenceTrackerFacts.

Import SequenceTracker.

Lemma update_fresh seq d : (update seq d).1 = negb (recorded d seq).
Proof.
  unfold update, recorded.
  destruct (high d <? seq) eqn:Hhigh; simpl.
  - apply Z.ltb_lt in Hhigh.
    by rewrite (proj2 (Z.leb_gt seq (high d))) by lia.
  - apply Z.ltb_ge in Hhigh.
    rewrite (proj2 (Z.leb_le seq (high d))) by lia.
    by destruct (missing d seq).
Qed.

Lemma add_gap_below n r gs :
  Forall (λ x, x.2 < n) gs → r.2 < n → Forall (λ x, x.2 < n) (add_gap r gs).
Proof.
  intros Hgs Hr. induction Hgs as [|g gs Hg Hgs IH]; simpl.
  - by constructor.
  - destruct gs as [|g' gs'].
    + destruct (g.2 + 1 =? r.1); repeat constructor; done.
    + constructor; done.
Qed.

Lemma punch_below n seq gs :
  Forall (λ x, x.2 < n) gs → Forall (λ x, x.2 < n) (flat_map (punch seq) gs).
Proof.
  induction 1 as [|g gs Hg Hgs IH]; simpl; [constructor|].
  apply Forall_app. split; [|done].
  unfold punch, covers.
  destruct (g.1 <=? seq) eqn:H1, (seq <=? g.2) eqn:H2; simpl;
    try (repeat constructor; done).
  apply Z.leb_le in H1, H2.
  destruct (g.1 <? seq), (seq <? g.2); repeat constructor; simpl; lia.
Qed.

Lemma update_bounded seq d : bounded d → bounded (update seq d).2.
Proof.
  unfold bounded, update. intros Hd.
  destruct (high d <? seq) eqn:Hhigh; simpl.
  - apply Z.ltb_lt in Hhigh.
    assert (Forall (λ r, r.2 < seq) (gaps d)) as Hd'.
    { eapply Forall_impl; [exact Hd|]. simpl. intros; lia. }
    destruct (high d + 1 <=? seq - 1); [|done].
    apply add_gap_below; [done|]. simpl. lia.
  - destruct (missing d seq); simpl; [|done].
    by apply punch_below.
Qed.

Lemma punch_uncovers seq gs :
  existsb (covers seq) (flat_map (punch seq) gs) = false.
Proof.
  induction gs as [|g gs IH]; simpl; [done|].
  rewrite existsb_app, IH, orb_false_r.
  unfold punch. destruct (covers seq g) eqn:Hg; simpl.
  - unfold covers.
    assert ((seq <=? seq - 1) = false) as Hbelow by (apply Z.leb_gt; lia).
    assert ((seq + 1 <=? seq) = false) as Habove by (apply Z.leb_gt; lia).
    destruct (g.1 <? seq), (seq <? g.2); simpl;
      rewrite ?Hbelow, ?Habove, ?andb_false_r; done.
  - by rewrite Hg.
Qed.

Lemma below_uncovered seq gs :
  Forall (λ r, r.2 < seq) gs → existsb (covers seq) gs = false.
Proof.
  induction 1 as [|g gs Hg Hgs IH]; simpl; [done|].
  rewrite IH, orb_false_r. unfold covers.
  apply andb_false_iff. right. apply Z.leb_gt. lia.
Qed.

Lemma update_records seq d :
  bounded d → recorded (update seq d).2 seq = true.
Proof.
  intros Hd. pose proof (update_bounded seq d Hd) as Hd'.
  revert Hd'. unfold bounded, recorded, update.
  destruct (high d <? seq) eqn:Hhigh; simpl.
  - intros Hd'. rewrite Z.leb_refl. simpl.
    unfold missing. simpl. by rewrite below_uncovered.
  - apply Z.ltb_ge in Hhigh.
    assert ((seq <=? high d) = true) as Hle by (apply Z.leb_le; lia).
    destruct (missing d seq) eqn:Hmiss; simpl; intros _; rewrite Hle; simpl.
    + unfold missing. simpl. by rewrite punch_uncovers.
    + by rewrite Hmiss.
Qed.

Lemma make_bounded baseline : bounded (make baseline).
Proof. constructor. Qed.

Lemma skip_bounded floor d : bounded d → bounded (skip floor d).
Proof.
  unfold bounded, skip. simpl. intros Hd.
  apply Forall_forall. intros r Hr. apply list_elem_of_filter in Hr as [_ Hr].
  by apply (proj1 (Forall_forall _ _) Hd).
Qed.

End SequenceTrackerFacts.

Section Stubs.

Context {DS : Type} `{!DisjointSequence.Ops DS}.
Implicit Types (w : World (DS := DS)).

(** The three members left as [// TODO implement] return at once. *)
Lemma stubs_return w message remote_peer low high :
  nak_received message w = Some (tt, w)
  ∧ nakack_received message w = Some (tt, w)
  ∧ send_nakack remote_peer low high w = Some (tt, w).
Proof. done. Qed.

End Stubs.

(** C1.  The repair acknowledgement for the range (5, 8], sent by peer 2
    to the local peer 1 while peer 2 is tracked with 6..8 missing: the
    handler, called directly or through [sample_received], returns the
    world unchanged; the tracker of peer 2 is not the one [skip 8] would
    leave. *)
Theorem nakack_received_does_not_skip :
  let w := Example.world Example.tracking in
  let message := [2; 1; 5; 8] in
  nakack_received message w = Some (tt, w)
  ∧ sample_received
      {| header_ := {| message_id_ := TRANSPORT_CONTROL;
                       submessage_id_ := MULTICAST_NAKACK |};
         sample_ := message |} w = Some (tt, w)
  ∧ sequences_ (link w) !! 2 = Some Example.tracker
  ∧ Example.tracker ≠ DisjointSequence.skip 8 Example.tracker.
Proof. repeat split; done. Qed.

(** C7.  The repair request for the range (5, 8], sent by peer 2 to the
    local peer 1: the handler, called directly or through
    [sample_received], returns the world unchanged, so nothing is
    retransmitted and no repair acknowledgement is sent; [send_nakack]
    itself sends nothing either. *)
Theorem nak_received_does_not_answer :
  let w := Example.world Example.tracking in
  let message := [2; 1; 5; 8] in
  nak_received message w = Some (tt, w)
  ∧ sample_received
      {| header_ := {| message_id_ := TRANSPORT_CONTROL;
                       submessage_id_ := MULTICAST_NAK |};
         sample_ := message |} w = Some (tt, w)
  ∧ send_nakack 2 5 8 w = Some (tt, w)
  ∧ sent (calls w) = [].
Proof. repeat split; done. Qed.

(** ** The ledger *)

Lemma upper_bound_app deadline (h : NakHistory) :
  (upper_bound deadline h).1 ++ (upper_bound deadline h).2 = h.
Proof.
  induction h as [|x h IH]; simpl; [done|].
  destruct (deadline <? x.1); simpl; [done|].
  destruct (upper_bound deadline h) as [expired rest]; simpl in *.
  by rewrite IH.
Qed.

(** Behind [upper_bound deadline] no earlier deadline finds anything. *)
Lemma upper_bound_rest deadline deadline' (h : NakHistory) :
  deadline' ≤ deadline →
  upper_bound deadline' (upper_bound deadline h).2
  = ([], (upper_bound deadline h).2).
Proof.
  intros Hle. induction h as [|x h IH]; simpl; [done|].
  destruct (deadline <? x.1) eqn:Hx; simpl.
  - apply Z.ltb_lt in Hx.
    by rewrite (proj2 (Z.ltb_lt deadline' x.1)) by lia.
  - by destruct (upper_bound deadline h) as [expired rest].
Qed.

Lemma upper_bound_later deadline (h : NakHistory) :
  Forall (λ e, deadline < e.1) h → upper_bound deadline h = ([], h).
Proof.
  destruct 1 as [|x h Hx Hh]; simpl; [done|].
  by rewrite (proj2 (Z.ltb_lt deadline x.1)).
Qed.

Lemma later_entries deadline (h : NakHistory) :
  Forall (λ e, deadline < e.1) h →
  filter (λ e, e.1 ≤ deadline) h = [] ∧ filter (λ e, deadline < e.1) h = h.
Proof.
  induction 1 as [|x h Hx Hh [IH1 IH2]]; [done|].
  rewrite !filter_cons. repeat case_decide; try lia.
  by rewrite IH1, IH2.
Qed.

(** On a sorted ledger [upper_bound] separates exactly the entries that
    are not later than the deadline from those that are. *)
Lemma upper_bound_sorted deadline (h : NakHistory) :
  ledger_sorted h →
  upper_bound deadline h
  = (filter (λ e, e.1 ≤ deadline) h, filter (λ e, deadline < e.1) h).
Proof.
  unfold ledger_sorted. intros Hsorted.
  assert (Transitive (λ x y : ACE_Time_Value * NakRequest, x.1 ≤ y.1))
    by (intros x y z; simpl; lia).
  apply Sorted_StronglySorted in Hsorted; [|done].
  induction Hsorted as [|x h Hh IH Hx]; simpl; [done|].
  destruct (deadline <? x.1) eqn:Hd.
  - apply Z.ltb_lt in Hd.
    destruct (later_entries deadline (x :: h)) as [-> ->]; [|done].
    constructor; [done|].
    eapply Forall_impl; [exact Hx|]. simpl. intros; lia.
  - apply Z.ltb_ge in Hd. rewrite IH, !filter_cons.
    repeat case_decide; try lia. done.
Qed.

Lemma nak_history_insert_Permutation e (h : NakHistory) :
  nak_history_insert e h ≡ₚ e :: h.
Proof.
  induction h as [|x h IH]; simpl; [done|].
  destruct (e.1 <? x.1); [done|].
  rewrite IH. apply Permutation_swap.
Qed.

Lemma nak_history_insert_sorted e (h : NakHistory) :
  ledger_sorted h → ledger_sorted (nak_history_insert e h).
Proof.
  unfold ledger_sorted. induction 1 as [|x h Hh IH Hx]; simpl.
  - repeat constructor.
  - destruct (e.1 <? x.1) eqn:He.
    + apply Z.ltb_lt in He. repeat constructor; [done|done|simpl; lia].
    + apply Z.ltb_ge in He. constructor; [done|].
      destruct h as [|y h]; simpl in *.
      * by constructor.
      * destruct (e.1 <? y.1); constructor; [done|].
        by inversion Hx.
Qed.

Lemma upper_bound_rest_sorted deadline (h : NakHistory) :
  ledger_sorted h → ledger_sorted (upper_bound deadline h).2.
Proof.
  unfold ledger_sorted. induction 1 as [|x h Hh IH Hx]; simpl; [constructor|].
  destruct (deadline <? x.1); simpl; [by constructor|].
  by destruct (upper_bound deadline h).
Qed.

Section Expiry.

Context {DS : Type} `{!DisjointSequence.Ops DS}.
Implicit Types (w : World (DS := DS)).

Lemma set_sequences_id (l : ReliableMulticast (DS := DS)) :
  set_sequences (sequences_ l) l = l.
Proof. by destruct l. Qed.

Lemma for_each_cons {A : Type} (body : A → M unit) x xs w :
  for_each body (x :: xs) w =
  match body x w with
  | Some (_, w') => for_each body xs w'
  | None => None
  end.
Proof. done. Qed.

(** One turn of the loop of [expire_naks]. *)
Lemma expire_nak_run time peer mark w :
  expire_nak (time, (peer, mark)) w =
  Some (tt,
    match sequences_ (link w) !! peer with
    | None =>
        {| link := link w;
           calls := calls w
                    ++ [ACE_ERROR LM_ERROR (failed_to_find_sequence peer)];
           allocations := allocations w; statuses := statuses w |}
    | Some d =>
        if DisjointSequence.value d <? mark then
          {| link := set_sequences
                       (<[peer := DisjointSequence.skip mark d]>
                          (sequences_ (link w))) (link w);
             calls := calls w
                      ++ [ACE_ERROR LM_WARNING
                            (skipping_datagrams (DisjointSequence.depth d)
                               peer)];
             allocations := allocations w; statuses := statuses w |}
        else w
    end).
Proof.
  unfold expire_nak. exec.
  destruct (sequences_ (link w) !! peer) as [d|]; [|done].
  by destruct (DisjointSequence.value d <? mark).
Qed.

(** The loop of [expire_naks] returns, touches nothing of the link but
    the sequence map, and follows the expiry policy. *)
Lemma expire_loop entries w :
  ∃ w',
    for_each expire_nak entries w = Some (tt, w')
    ∧ link w' = set_sequences (sequences_ (link w')) (link w)
    ∧ allocations w' = allocations w
    ∧ statuses w' = statuses w
    ∧ sent (calls w') = sent (calls w)
    ∧ expiry_policy (sequences_ (link w)) entries (sequences_ (link w')).
Proof.
  revert w. induction entries as [|[time [peer mark]] entries IH]; intros w.
  - exists w. simpl. rewrite set_sequences_id. repeat split; try done.
    constructor.
  - rewrite for_each_cons, expire_nak_run.
    destruct (sequences_ (link w) !! peer) as [d|] eqn:Hd.
    + destruct (DisjointSequence.value d <? mark) eqn:Hmark.
      * match goal with |- context [for_each _ _ ?w0] =>
          destruct (IH w0) as (w' & Hrun & Hlink & Ha & Hs & Hsent & Hpol)
        end.
        exists w'. simpl in *. split; [done|]. split; [by rewrite Hlink|].
        split; [done|]. split; [done|]. split.
        { rewrite Hsent, sent_app. simpl. by rewrite app_nil_r. }
        apply Z.ltb_lt in Hmark. eapply expiry_skip; eauto.
      * destruct (IH w) as (w' & Hrun & Hlink & Ha & Hs & Hsent & Hpol).
        exists w'. split; [done|]. split; [done|]. split; [done|].
        split; [done|]. split; [done|].
        apply Z.ltb_ge in Hmark. eapply expiry_keep; eauto. lia.
    + match goal with |- context [for_each _ _ ?w0] =>
        destruct (IH w0) as (w' & Hrun & Hlink & Ha & Hs & Hsent & Hpol)
      end.
      exists w'. simpl in *. split; [done|]. split; [done|].
      split; [done|]. split; [done|]. split.
      { rewrite Hsent, sent_app. simpl. by rewrite app_nil_r. }
      eapply expiry_unknown; eauto.
Qed.

(** What [expire_naks] does to a world, sorted ledger or not. *)
Lemma expire_naks_run now w :
  let range :=
    upper_bound (now - nak_timeout_ (config_ (link w)))
                (nak_history_ (link w)) in
  ∃ w',
    expire_naks now w = Some (tt, w')
    ∧ link w' =
      set_nak_history range.2 (set_sequences (sequences_ (link w')) (link w))
    ∧ allocations w' = allocations w
    ∧ statuses w' = statuses w
    ∧ sent (calls w') = sent (calls w)
    ∧ (range.1 = [] → w' = w)
    ∧ expiry_policy (sequences_ (link w)) range.1 (sequences_ (link w')).
Proof.
  intros range. unfold expire_naks. exec. fold range.
  pose proof (upper_bound_app (now - nak_timeout_ (config_ (link w)))
                (nak_history_ (link w))) as Happ. fold range in Happ.
  destruct range.1 as [|entry entries] eqn:Hexpired.
  - exists w. simpl in Happ. rewrite Happ. split; [done|]. split.
    { by destruct w as [[]]. }
    repeat split; try done. constructor.
  - destruct (expire_loop (entry :: entries) w)
      as (w' & Hrun & Hlink & Ha & Hs & Hsent & Hpol).
    rewrite Hrun. eexists. split; [done|]. simpl.
    split; [by rewrite Hlink|]. repeat split; done.
Qed.

(** C3, as amended.  The expire phase on a sorted ledger, whatever the
    implementation of the tracker: [expire_naks] returns; the entries
    that are not later than [now] minus the repair timeout (among them
    every older one) are handled in the order of the ledger as the
    expiry policy says: a tracked peer whose tracker converts to a
    sequence number below the mark of the entry gets [skip] with that
    mark (the conversion is the one that the comparison of [expire_naks]
    applies to the tracker; in the tracker of the specification it is
    the low-water mark), any other tracker is left as it is; and exactly
    these entries are gone from the ledger. *)
Theorem expire_naks_skips_silent_peers w now :
  ledger_sorted (nak_history_ (link w)) →
  let deadline := now - nak_timeout_ (config_ (link w)) in
  ∃ w',
    expire_naks now w = Some (tt, w')
    ∧ expiry_policy (sequences_ (link w))
        (filter (λ e, e.1 ≤ deadline) (nak_history_ (link w)))
        (sequences_ (link w'))
    ∧ nak_history_ (link w')
      = filter (λ e, deadline < e.1) (nak_history_ (link w)).
Proof.
  intros Hsorted deadline.
  destruct (expire_naks_run now w)
    as (w' & Hrun & Hlink & _ & _ & _ & _ & Hpol).
  fold deadline in Hlink, Hpol.
  rewrite (upper_bound_sorted deadline _ Hsorted) in Hlink, Hpol.
  exists w'. split; [done|]. split; [done|].
  by rewrite Hlink.
Qed.

(** C9, as amended.  After a run of the expire phase, a second run
    that finds no ledger entry at or before its own deadline returns the
    world it was given: no tracker changes and nothing is logged, so
    [skip] is not invoked.  This is the case whenever the clock reading
    of the second run is not later than that of the first, which removed
    every entry at or before its deadline. *)
Theorem expire_naks_idempotent w now :
  ∃ w',
    expire_naks now w = Some (tt, w')
    ∧ ∀ now',
        now' ≤ now
        ∨ Forall (λ e, now' - nak_timeout_ (config_ (link w')) < e.1)
                 (nak_history_ (link w')) →
        expire_naks now' w' = Some (tt, w').
Proof.
  destruct (expire_naks_run now w)
    as (w' & Hrun & Hlink & _ & _ & _ & _ & _).
  exists w'. split; [done|]. intros now' Hnow'.
  destruct (expire_naks_run now' w')
    as (w'' & Hrun' & _ & _ & _ & _ & Hsame & _).
  rewrite Hrun'. rewrite Hsame; [done|].
  destruct Hnow' as [Hle | Hlater].
  - rewrite Hlink. simpl. rewrite upper_bound_rest; [done|lia].
  - by rewrite upper_bound_later.
Qed.

(** The clock matters, whatever the tracker: an entry that the first run
    finds later than its deadline, and the second run does not, is
    expired by the second run, and its peer is skipped if the mark is
    still ahead of it. *)
Lemma expire_naks_later_run w now now' time peer mark d :
  nak_history_ (link w) = [(time, (peer, mark))] →
  sequences_ (link w) !! peer = Some d →
  DisjointSequence.value d < mark →
  now - nak_timeout_ (config_ (link w)) < time →
  time ≤ now' - nak_timeout_ (config_ (link w)) →
  expire_naks now w = Some (tt, w)
  ∧ ∃ w',
      expire_naks now' w = Some (tt, w')
      ∧ sequences_ (link w') =
        <[peer := DisjointSequence.skip mark d]> (sequences_ (link w))
      ∧ nak_history_ (link w') = []
      ∧ skips (calls w') =
        skips (calls w) ++ [(DisjointSequence.depth d, peer)].
Proof.
  intros Hledger Hd Hmark Hnow Hnow'. unfold expire_naks. exec.
  rewrite Hledger. simpl.
  rewrite (proj2 (Z.ltb_lt _ _) Hnow). simpl. split; [done|].
  rewrite (proj2 (Z.ltb_ge _ _) Hnow'). simpl.
  unfold expire_nak. exec.
  rewrite Hd, (proj2 (Z.ltb_lt _ _) Hmark). simpl.
  eexists. split; [reflexivity|]. simpl.
  by rewrite skips_app.
Qed.

End Expiry.

(** ** The request phase *)

Section Selection.

(** Picking, out of what a loop over distinct peers produced, the part
    that belongs to one peer. *)

Context {DS B : Type} (g : MulticastPeer * DS → list B).
Context (P : MulticastPeer → B → Prop) `{!∀ p b, Decision (P p b)}.
Hypothesis P_own : ∀ it b p, b ∈ g it → P p b ↔ it.1 = p.

Lemma select_own it : filter (P it.1) (g it) = g it.
Proof using P_own.
  pose proof (P_own it) as Hown.
  induction (g it) as [|b bs IH]; [done|].
  rewrite filter_cons, decide_True.
  - f_equal. apply IH. intros b' p Hb'. apply Hown. by right.
  - apply Hown; [by left|done].
Qed.

Lemma select_other it p : it.1 ≠ p → filter (P p) (g it) = [].
Proof using P_own.
  intros Hne. pose proof (P_own it) as Hown.
  induction (g it) as [|b bs IH]; [done|].
  rewrite filter_cons, decide_False.
  - apply IH. intros b' p' Hb'. apply Hown. by right.
  - intros Hb. apply Hne, (Hown b p); [by left|done].
Qed.

Lemma select_absent (its : list (MulticastPeer * DS)) p :
  p ∉ its.*1 → filter (P p) (flat_map g its) = [].
Proof using P_own.
  induction its as [|it its IH]; simpl; [done|].
  intros Hp. apply not_elem_of_cons in Hp as [Hne Hp].
  rewrite filter_app, IH, app_nil_r by done.
  apply select_other. congruence.
Qed.

Lemma select_present (its : list (MulticastPeer * DS)) p d :
  NoDup its.*1 → (p, d) ∈ its →
  filter (P p) (flat_map g its) = g (p, d).
Proof using P_own.
  induction its as [|it its IH]; simpl; intros Hnodup Hin.
  - by apply elem_of_nil in Hin.
  - apply NoDup_cons in Hnodup as [Hit Hnodup].
    rewrite filter_app. apply elem_of_cons in Hin as [<-|Hin].
    + pose proof (select_own (p, d)) as Hown. simpl in Hown.
      rewrite Hown, select_absent, app_nil_r; done.
    + rewrite IH by done.
      rewrite select_other; [done|].
      intros <-. apply Hit. apply list_elem_of_fmap. by exists (it.1, d).
Qed.

End Selection.

Lemma send_all_app site al st ms1 ms2 :
  send_all site al st (ms1 ++ ms2)
  = ((send_all site al st ms1).1
     ++ (send_all site (send_all site al st ms1).2.1
           (send_all site al st ms1).2.2 ms2).1,
     (send_all site (send_all site al st ms1).2.1
        (send_all site al st ms1).2.2 ms2).2).
Proof.
  revert al st. induction ms1 as [|m ms1 IH]; intros al st.
  - simpl. by destruct (send_all site al st ms2).
  - simpl. destruct al as [|[] al]; simpl;
      try destruct st as [|[e|] st]; simpl; by rewrite IH.
Qed.

Lemma send_all_cons site al st m ms :
  send_all site al st (m :: ms)
  = ((send_all site al st [m]).1
     ++ (send_all site (send_all site al st [m]).2.1
           (send_all site al st [m]).2.2 ms).1,
     (send_all site (send_all site al st [m]).2.1
        (send_all site al st [m]).2.2 ms).2).
Proof. exact (send_all_app site al st [m] ms). Qed.

Lemma send_all_sent site al st ms :
  sent (send_all site al st ms).1 = granted al ms.
Proof.
  revert al st. induction ms as [|m ms IH]; intros al st; [done|].
  simpl. destruct al as [|[] al]; simpl;
    try destruct st as [|[e|] st]; simpl; by rewrite IH.
Qed.

Lemma granted_length {A : Type} al (ms : list A) :
  (length (granted al ms) ≤ length ms)%nat.
Proof.
  revert al. induction ms as [|m ms IH]; intros al; simpl; [done|].
  destruct al as [|[] al]; simpl.
  - specialize (IH []). lia.
  - specialize (IH al). lia.
  - specialize (IH al). lia.
Qed.

Lemma granted_sublist {A : Type} al (ms : list A) :
  granted al ms `sublist_of` ms.
Proof.
  revert al. induction ms as [|m ms IH]; intros al; simpl; [done|].
  destruct al as [|[] al]; simpl.
  - by apply sublist_skip.
  - by apply sublist_skip.
  - by apply sublist_cons.
Qed.

Lemma send_all_failures site al st ms :
  allocation_failures (send_all site al st ms).1
  = replicate (length ms - length (granted al ms)) site.
Proof.
  revert al st. induction ms as [|m ms IH]; intros al st; [done|].
  assert (∀ al st,
            allocation_failures
              (ACE_ERROR LM_ERROR (failed_to_allocate site)
               :: (send_all site al st ms).1)
            = replicate (length (m :: ms) - length (granted al ms)) site)
    as Hrefused.
  { intros al' st'. pose proof (granted_length al' ms) as Hle.
    replace (length (m :: ms) - length (granted al' ms))%nat
      with (S (length ms - length (granted al' ms))) by (simpl; lia).
    unfold allocation_failures at 1. simpl.
    fold (allocation_failures (send_all site al' st' ms).1).
    by rewrite IH. }
  assert (∀ al st cs,
            allocation_failures cs = [] →
            allocation_failures (cs ++ (send_all site al st ms).1)
            = replicate (length (m :: ms)
                         - length (m :: granted al ms)) site)
    as Hsent.
  { intros al' st' cs Hcs. unfold allocation_failures in *.
    rewrite omap_app, Hcs. simpl. apply IH. }
  simpl send_all. simpl granted.
  destruct al as [|[] al].
  - destruct st as [|[e|] st]; simpl fst.
    + by apply (Hsent [] [] [call_send_control m]).
    + by apply (Hsent [] st
                  [call_send_control m;
                   ACE_ERROR LM_ERROR (send_control_failed site e)]).
    + by apply (Hsent [] st [call_send_control m]).
  - destruct st as [|[e|] st]; simpl fst.
    + by apply (Hsent al [] [call_send_control m]).
    + by apply (Hsent al st
                  [call_send_control m;
                   ACE_ERROR LM_ERROR (send_control_failed site e)]).
    + by apply (Hsent al st [call_send_control m]).
  - apply Hrefused.
Qed.

Lemma granted_all {A : Type} al (ms : list A) :
  forallb (λ ok : bool, ok) al = true → granted al ms = ms.
Proof.
  revert al. induction ms as [|m ms IH]; intros al Hal; [done|].
  simpl. destruct al as [|[] al]; simpl in *; try done.
  - f_equal. by apply IH.
  - f_equal. by apply IH.
Qed.

Section Requests.

Context {DS : Type} `{!DisjointSequence.Ops DS}.
Implicit Types (w : World (DS := DS)) (m : gmap Z DS).

(** [elements] lists every binding of the map once. *)
Lemma elements_Permutation m : elements m ≡ₚ map_to_list m.
Proof. unfold elements. apply merge_sort_Permutation. Qed.

Lemma elem_of_elements_map m p d : (p, d) ∈ elements m ↔ m !! p = Some d.
Proof. rewrite elements_Permutation. apply elem_of_map_to_list. Qed.

Lemma NoDup_elements m : NoDup (elements m).*1.
Proof. rewrite elements_Permutation. apply NoDup_fst_map_to_list. Qed.

Lemma never_exhausted_allocates w :
  never_exhausted w = true → allocates w = true.
Proof.
  unfold never_exhausted, allocates.
  destruct (allocations w) as [|[] ?]; simpl; done.
Qed.

(** What [send_nak] does to a world. *)
Lemma send_nak_run remote_peer low high w :
  let request :=
    create_control MULTICAST_NAK
      [local_peer_ (link w); remote_peer; low; high] in
  ∃ w',
    send_nak remote_peer low high w = Some (tt, w')
    ∧ link w' = link w
    ∧ sent (calls w') =
      sent (calls w) ++ (if allocates w then [request] else [])
    ∧ (never_exhausted w = true → never_exhausted w' = true).
Proof.
  unfold send_nak, never_exhausted, allocates. exec.
  destruct (allocations w) as [|[] ?] eqn:Hal; simpl;
    try destruct (statuses w) as [|[?|] ?]; simpl;
    eexists; (split; [reflexivity|]); simpl; (split; [done|]);
    rewrite ?Hal, ?sent_app; simpl; rewrite ?app_nil_r; done.
Qed.

(** The inner loop: what is sent is drawn from the requests of the
    ranges, in their order, and is all of them when no allocation
    fails. *)
Lemma send_nak_loop remote_peer ranges w :
  let requests :=
    map (λ range : MulticastSequence * MulticastSequence,
           create_control MULTICAST_NAK
             [local_peer_ (link w); remote_peer; range.1; range.2])
        ranges in
  ∃ w' ms,
    for_each (λ range : MulticastSequence * MulticastSequence,
                send_nak remote_peer range.1 range.2) ranges w
    = Some (tt, w')
    ∧ link w' = link w
    ∧ sent (calls w') = sent (calls w) ++ ms
    ∧ ms `sublist_of` requests
    ∧ (never_exhausted w = true →
       never_exhausted w' = true ∧ ms = requests).
Proof.
  cbv zeta. revert w. induction ranges as [|range ranges IH]; intros w.
  - exists w, []. simpl. by rewrite app_nil_r.
  - rewrite for_each_cons.
    destruct (send_nak_run remote_peer range.1 range.2 w)
      as (w1 & -> & Hlink1 & Hsent1 & Hok1).
    destruct (IH w1) as (w' & ms & Hrun & Hlink & Hsent & Hsub & Hall).
    rewrite Hlink1 in Hsub, Hall.
    eexists w', (_ ++ ms). split; [done|]. split; [congruence|].
    split; [by rewrite Hsent, Hsent1, <- app_assoc|]. split.
    + simpl. apply (sublist_app _ [_]); [|done].
      destruct (allocates w); [done|apply sublist_nil_l].
    + intros Hok. destruct (Hall (Hok1 Hok)) as [Hok' ->].
      by rewrite (never_exhausted_allocates w Hok).
Qed.

(** One turn of the outer loop. *)
Lemma send_naks_to_run now it w :
  let requests :=
    if DisjointSequence.disjoint it.2
    then naks_of (local_peer_ (link w)) it else [] in
  ∃ w' ms,
    send_naks_to now it w = Some (tt, w')
    ∧ link w' =
      (if DisjointSequence.disjoint it.2
       then set_nak_history
              (nak_history_insert (request_of now it) (nak_history_ (link w)))
              (link w)
       else link w)
    ∧ sent (calls w') = sent (calls w) ++ ms
    ∧ ms `sublist_of` requests
    ∧ (never_exhausted w = true →
       never_exhausted w' = true ∧ ms = requests).
Proof.
  unfold send_naks_to.
  destruct (DisjointSequence.disjoint it.2).
  - exec.
    match goal with |- context [for_each _ _ ?w0] =>
      destruct (send_nak_loop it.1 (DisjointSequence.ranges it.2) w0)
        as (w' & ms & Hrun & Hlink & Hsent & Hsub & Hall)
    end.
    by exists w', ms.
  - exists w, []. by rewrite app_nil_r.
Qed.

Lemma send_naks_loop now its w :
  let requesting := filter (λ it, DisjointSequence.disjoint it.2 = true) its in
  let requests := flat_map (naks_of (local_peer_ (link w))) requesting in
  ∃ w' ms,
    for_each (send_naks_to now) its w = Some (tt, w')
    ∧ link w' =
      set_nak_history
        (foldl (λ h it, nak_history_insert (request_of now it) h)
               (nak_history_ (link w)) requesting)
        (link w)
    ∧ sent (calls w') = sent (calls w) ++ ms
    ∧ ms `sublist_of` requests
    ∧ (never_exhausted w = true →
       never_exhausted w' = true ∧ ms = requests).
Proof.
  cbv zeta. revert w. induction its as [|it its IH]; intros w.
  - exists w, []. simpl. rewrite app_nil_r. by destruct w as [[]].
  - rewrite for_each_cons.
    destruct (send_naks_to_run now it w)
      as (w1 & ms1 & -> & Hlink1 & Hsent1 & Hsub1 & Hall1).
    destruct (IH w1) as (w' & ms & Hrun & Hlink & Hsent & Hsub & Hall).
    assert (local_peer_ (link w1) = local_peer_ (link w)) as Hlocal.
    { rewrite Hlink1. by destruct (DisjointSequence.disjoint it.2). }
    rewrite Hlocal in Hsub, Hall.
    exists w', (ms1 ++ ms). split; [done|]. rewrite filter_cons.
    destruct (DisjointSequence.disjoint it.2) eqn:Hdisjoint.
    + rewrite decide_True by done. simpl. split.
      { rewrite Hlink, Hlink1. done. }
      split; [by rewrite Hsent, Hsent1, <- app_assoc|].
      split; [by apply sublist_app|].
      intros Hok. destruct (Hall1 Hok) as [Hok1 ->].
      by destruct (Hall Hok1) as [Hok' ->].
    + rewrite decide_False by (by intros ?). split.
      { rewrite Hlink, Hlink1. done. }
      split; [by rewrite Hsent, Hsent1, <- app_assoc|].
      apply sublist_nil_r in Hsub1 as ->. simpl. split; [done|].
      intros Hok. destruct (Hall1 Hok) as [Hok1 _]. by apply Hall.
Qed.

Lemma requests_Permutation now (its : list (MulticastPeer * DS))
    (h : NakHistory) :
  foldl (λ h it, nak_history_insert (request_of now it) h) h its
  ≡ₚ h ++ flat_map (λ it, [request_of now it]) its.
Proof.
  revert h. induction its as [|it its IH]; intros h; simpl.
  - by rewrite app_nil_r.
  - rewrite IH, nak_history_insert_Permutation.
    by rewrite <- Permutation_middle.
Qed.

Lemma requests_sorted now (its : list (MulticastPeer * DS))
    (h : NakHistory) :
  ledger_sorted h →
  ledger_sorted (foldl (λ h it, nak_history_insert (request_of now it) h)
                   h its).
Proof.
  revert h. induction its as [|it its IH]; intros h Hh; simpl; [done|].
  by apply IH, nak_history_insert_sorted.
Qed.

(** The whole request phase. *)
Lemma send_naks_run now w :
  let requesting :=
    filter (λ it, DisjointSequence.disjoint it.2 = true)
           (elements (sequences_ (link w))) in
  let requests := flat_map (naks_of (local_peer_ (link w))) requesting in
  ∃ w' ms,
    send_naks now w = Some (tt, w')
    ∧ link w' =
      set_nak_history
        (foldl (λ h it, nak_history_insert (request_of now it) h)
               (nak_history_ (link w)) requesting)
        (link w)
    ∧ sent (calls w') = sent (calls w) ++ ms
    ∧ ms `sublist_of` requests
    ∧ (never_exhausted w = true →
       never_exhausted w' = true ∧ ms = requests).
Proof. unfold send_naks. exec. apply send_naks_loop. Qed.

Lemma filter_sublist {B : Type} (P : B → Prop) `{!∀ b, Decision (P b)}
    (l k : list B) :
  l `sublist_of` k → filter P l `sublist_of` filter P k.
Proof.
  induction 1 as [|x l k Hlk IH|x l k Hlk IH]; rewrite ?filter_cons.
  - done.
  - case_decide; [by constructor|done].
  - case_decide; [by constructor|done].
Qed.

(** The peers that take part in a request phase, seen from the map. *)
Lemma requesting_present m p d :
  m !! p = Some d → DisjointSequence.disjoint d = true →
  (p, d) ∈ filter (λ it : MulticastPeer * DS,
                     DisjointSequence.disjoint it.2 = true) (elements m).
Proof.
  intros Hd Hdisjoint. apply list_elem_of_filter. split; [done|].
  by apply elem_of_elements_map.
Qed.

Lemma requesting_absent m p :
  match m !! p with
  | Some d => DisjointSequence.disjoint d = false
  | None => True
  end →
  p ∉ (filter (λ it : MulticastPeer * DS,
                 DisjointSequence.disjoint it.2 = true) (elements m)).*1.
Proof.
  intros Hp Hin. apply list_elem_of_fmap in Hin as ([p' d] & -> & Hin).
  apply list_elem_of_filter in Hin as [Hdisjoint Hin]. simpl in *.
  apply elem_of_elements_map in Hin. rewrite Hin in Hp. congruence.
Qed.

Lemma NoDup_requesting m :
  NoDup (filter (λ it : MulticastPeer * DS,
                   DisjointSequence.disjoint it.2 = true) (elements m)).*1.
Proof.
  eapply sublist_NoDup; [apply NoDup_elements|].
  apply fmap_sublist, sublist_filter.
Qed.

(** The part of a request phase that concerns one peer. *)
Lemma requesting_select {B : Type} (g : MulticastPeer * DS → list B)
    (P : MulticastPeer → B → Prop) `{!∀ p b, Decision (P p b)} m p :
  (∀ it b p, b ∈ g it → P p b ↔ it.1 = p) →
  filter (P p)
    (flat_map g (filter (λ it : MulticastPeer * DS,
                           DisjointSequence.disjoint it.2 = true)
                        (elements m)))
  = match m !! p with
    | Some d => if DisjointSequence.disjoint d then g (p, d) else []
    | None => []
    end.
Proof.
  intros Hown. destruct (m !! p) as [d|] eqn:Hd.
  - destruct (DisjointSequence.disjoint d) eqn:Hdisjoint.
    + apply select_present; [done|apply NoDup_requesting|].
      by apply requesting_present.
    + apply select_absent; [done|]. apply requesting_absent. by rewrite Hd.
  - apply select_absent; [done|]. apply requesting_absent. by rewrite Hd.
Qed.

(** What [send_nak] does to a world, whatever the environment
    answers. *)
Lemma send_nak_exact remote_peer low high w :
  let outcome :=
    send_all in_send_nak (allocations w) (statuses w)
      [create_control MULTICAST_NAK
         [local_peer_ (link w); remote_peer; low; high]] in
  send_nak remote_peer low high w
  = Some (tt, {| link := link w; calls := calls w ++ outcome.1;
                 allocations := outcome.2.1; statuses := outcome.2.2 |}).
Proof.
  unfold send_nak. exec.
  destruct (allocations w) as [|[] al] eqn:Hal; simpl;
    try destruct (statuses w) as [|[e|] st] eqn:Hst; simpl;
    rewrite ?Hal, ?Hst, <- ?app_assoc; done.
Qed.

Lemma send_nak_loop_exact remote_peer ranges w :
  let outcome :=
    send_all in_send_nak (allocations w) (statuses w)
      (map (λ range : MulticastSequence * MulticastSequence,
              create_control MULTICAST_NAK
                [local_peer_ (link w); remote_peer; range.1; range.2])
           ranges) in
  for_each (λ range : MulticastSequence * MulticastSequence,
              send_nak remote_peer range.1 range.2) ranges w
  = Some (tt, {| link := link w; calls := calls w ++ outcome.1;
                 allocations := outcome.2.1; statuses := outcome.2.2 |}).
Proof.
  cbv zeta. revert w. induction ranges as [|range ranges IH]; intros w.
  - simpl. rewrite app_nil_r. by destruct w.
  - rewrite for_each_cons, send_nak_exact. cbv zeta. rewrite IH.
    cbn [link calls allocations statuses map].
    rewrite (send_all_cons _ _ _ _ (map _ ranges)).
    cbn [fst snd]. by rewrite app_assoc.
Qed.

Lemma send_naks_loop_exact now its w :
  let requesting :=
    filter (λ it : MulticastPeer * DS,
              DisjointSequence.disjoint it.2 = true) its in
  let outcome :=
    send_all in_send_nak (allocations w) (statuses w)
      (flat_map (naks_of (local_peer_ (link w))) requesting) in
  for_each (send_naks_to now) its w
  = Some (tt,
          {| link :=
               set_nak_history
                 (foldl (λ h it, nak_history_insert (request_of now it) h)
                        (nak_history_ (link w)) requesting)
                 (link w);
             calls := calls w ++ outcome.1;
             allocations := outcome.2.1; statuses := outcome.2.2 |}).
Proof.
  cbv zeta. revert w. induction its as [|it its IH]; intros w.
  - simpl. rewrite app_nil_r. by destruct w as [[]].
  - rewrite for_each_cons. unfold send_naks_to at 1.
    rewrite filter_cons.
    destruct (DisjointSequence.disjoint it.2) eqn:Hit.
    + rewrite decide_True by done. exec.
      rewrite send_nak_loop_exact. cbv zeta. rewrite IH.
      cbn [link calls allocations statuses flat_map foldl local_peer_
           nak_history_ set_nak_history].
      rewrite send_all_app. unfold naks_of at 2, request_of at 2.
      cbn [fst snd]. rewrite app_assoc. done.
    + rewrite decide_False by done. exec. apply IH.
Qed.

Lemma send_naks_exact now w :
  let requesting :=
    filter (λ it : MulticastPeer * DS,
              DisjointSequence.disjoint it.2 = true)
           (elements (sequences_ (link w))) in
  let outcome :=
    send_all in_send_nak (allocations w) (statuses w)
      (flat_map (naks_of (local_peer_ (link w))) requesting) in
  send_naks now w
  = Some (tt,
          {| link :=
               set_nak_history
                 (foldl (λ h it, nak_history_insert (request_of now it) h)
                        (nak_history_ (link w)) requesting)
                 (link w);
             calls := calls w ++ outcome.1;
             allocations := outcome.2.1; statuses := outcome.2.2 |}).
Proof. unfold send_naks. exec. apply send_naks_loop_exact. Qed.

(** C4, as amended.  The request phase always returns and leaves the
    sequence map alone.  The requests it tries to send are, for the
    trackers that report [disjoint] in the order of the map, one per
    range in the order of the ranges: for every peer, those addressed to
    it are exactly one per range of its tracker when it is tracked and
    reports [disjoint], and none otherwise; and the ledger gains exactly
    one entry for such a peer, made of [now], the peer and the tracker's
    [high], and no entry for any other.  The calls the phase adds are
    exactly these: for the [k]-th request, when the [k]-th coming buffer
    allocation fails, one allocation error and no call of
    [send_control]; otherwise one call of [send_control] with the
    request, followed by an error when its status is not
    [SEND_CONTROL_OK].  So what is handed to [send_control] is the
    requests whose buffer was allocated, each once and in order, the
    other requests are answered by one logged allocation error each, and
    a failure does not keep the later requests from being sent; when no
    allocation fails, every request is sent. *)
Theorem send_naks_requests_each_gap w now :
  let requesting :=
    filter (λ it : MulticastPeer * DS,
              DisjointSequence.disjoint it.2 = true)
           (elements (sequences_ (link w))) in
  let requests := flat_map (naks_of (local_peer_ (link w))) requesting in
  let outcome :=
    send_all in_send_nak (allocations w) (statuses w) requests in
  ∃ w',
    send_naks now w = Some (tt, w')
    ∧ sequences_ (link w') = sequences_ (link w)
    ∧ calls w' = calls w ++ outcome.1
    ∧ allocations w' = outcome.2.1
    ∧ statuses w' = outcome.2.2
    ∧ sent (calls w') = sent (calls w) ++ granted (allocations w) requests
    ∧ allocation_failures outcome.1
      = replicate (length requests
                   - length (granted (allocations w) requests)) in_send_nak
    ∧ (never_exhausted w = true →
       granted (allocations w) requests = requests)
    ∧ ∀ peer,
        let tracker := sequences_ (link w) !! peer in
        filter (requested_of peer) (nak_history_ (link w'))
        ≡ₚ filter (requested_of peer) (nak_history_ (link w))
           ++ match tracker with
              | Some d =>
                  if DisjointSequence.disjoint d
                  then [(now, (peer, DisjointSequence.high d))] else []
              | None => []
              end
        ∧ filter (addressed_to peer) requests
          = match tracker with
            | Some d =>
                if DisjointSequence.disjoint d
                then map (λ range,
                            create_control MULTICAST_NAK
                              [local_peer_ (link w); peer; range.1; range.2])
                         (DisjointSequence.ranges d)
                else []
            | None => []
            end
        ∧ filter (addressed_to peer) (granted (allocations w) requests)
          `sublist_of` filter (addressed_to peer) requests.
Proof.
  cbv zeta. eexists. split; [apply send_naks_exact|]. cbv zeta.
  cbn [link calls allocations statuses]. split; [done|]. split; [done|].
  split; [done|]. split; [done|]. split.
  { by rewrite sent_app, send_all_sent. }
  split; [apply send_all_failures|].
  split; [apply granted_all|].
  intros peer. split; [|split].
  - simpl. rewrite requests_Permutation, filter_app.
    apply Permutation_app_head.
    rewrite (requesting_select (λ it, [request_of now it]) requested_of).
    + by destruct (sequences_ (link w) !! peer).
    + intros it b p Hb. apply list_elem_of_singleton in Hb as ->. done.
  - rewrite (requesting_select (naks_of (local_peer_ (link w)))
               addressed_to); [done|].
    intros it b p Hb. unfold naks_of in Hb.
    apply list_elem_of_fmap in Hb as (range & -> & _).
    unfold addressed_to. simpl. split; congruence.
  - apply filter_sublist, granted_sublist.
Qed.

End Requests.

(** ** The acknowledged flag and the ledger across operations *)

Section Session.

Context {DS : Type} `{!DisjointSequence.Ops DS}.
Implicit Types (w : World (DS := DS)) (op : Operation).

(** An acknowledgement that is delivered completes the handshake. *)
Lemma synack_delivered op w :
  delivers_synack (local_peer_ (link w)) op →
  ∃ w',
    run op w = Some (tt, w')
    ∧ acked_ (link w') = true
    ∧ syn_watchdog_ (link w') = idle
    ∧ calls w' = calls w ++ [call_check_fully_association].
Proof.
  intros (remote_peer & rest & [-> | ->]); simpl;
    try (unfold sample_received; simpl);
    unfold synack_received; exec;
    rewrite bool_decide_eq_false_2 by (intros Hne; by apply Hne);
    eexists; split; done.
Qed.

Lemma synack_received_acked message w r w' :
  synack_received message w = Some (r, w') →
  w' = w
  ∨ (∃ remote_peer rest,
       message = remote_peer :: local_peer_ (link w) :: rest)
    ∧ acked_ (link w') = true
    ∧ syn_watchdog_ (link w') = idle
    ∧ calls w' = calls w ++ [call_check_fully_association].
Proof.
  unfold synack_received.
  destruct message as [|remote_peer [|local_peer rest]]; exec; try done.
  case_bool_decide as Hlocal; intros [= <- <-]; [by left|right].
  split; [|done]. exists remote_peer, rest. f_equal.
  destruct (decide (local_peer = local_peer_ (link w))); congruence.
Qed.

(** An operation leaves the flag as it is unless it delivers a handshake
    acknowledgement addressed to the local peer. *)
Lemma run_acked op w r w' :
  run op w = Some (r, w') →
  acked_ (link w') = acked_ (link w)
  ∨ delivers_synack (local_peer_ (link w)) op
    ∧ acked_ (link w') = true
    ∧ syn_watchdog_ (link w') = idle
    ∧ calls w' = calls w ++ [call_check_fully_association].
Proof.
  destruct op as [header|[[mid sid] message]| |now|now|message| |message
                 |remote_peer|message|remote_peer low high|message
                 |remote_peer low high|reactor nak_ok syn_ok active|
                 |now now'| | | | |];
    unfold run.
  - members; crunch; by left.
  - unfold sample_received. simpl. destruct mid; [destruct sid|..].
    + members; crunch; by left.
    + intros Hrun. apply synack_received_acked in Hrun
        as [-> | ((remote_peer & rest & ->) & Hacked)]; [by left|right].
      split; [|done]. exists remote_peer, rest. by right.
    + members; crunch; by left.
    + members; crunch; by left.
    + crunch; by left.
    + crunch; by left.
    + crunch; by left.
  - members; crunch; by left.
  - intros Hrun. left.
    destruct (expire_naks_run now w) as (w0 & Hrun0 & Hlink & _).
    rewrite Hrun0 in Hrun. simplify_eq. by rewrite Hlink.
  - intros Hrun. left.
    destruct (send_naks_run now w) as (w0 & ms & Hrun0 & Hlink & _).
    rewrite Hrun0 in Hrun. simplify_eq. by rewrite Hlink.
  - members; crunch; by left.
  - members; crunch; by left.
  - intros Hrun. apply synack_received_acked in Hrun
      as [-> | ((remote_peer & rest & ->) & Hacked)]; [by left|right].
    split; [|done]. exists remote_peer, rest. by left.
  - members; crunch; by left.
  - members; crunch; by left.
  - members; crunch; by left.
  - members; crunch; by left.
  - members; crunch; by left.
  - members; crunch; by left.
  - members; crunch; by left.
  - unfold NakWatchdog_on_interval. exec. intros Hrun. left.
    destruct (expire_naks_run now w) as (w0 & Hrun0 & Hlink0 & _).
    destruct (send_naks_run now' w0) as (w1 & ms & Hrun1 & Hlink1 & _).
    rewrite Hrun0, Hrun1 in Hrun. simplify_eq. by rewrite Hlink1, Hlink0.
  - members; crunch; by left.
  - members; crunch; by left.
  - members; crunch; by left.
  - members; crunch; by left.
  - members; crunch; by left.
Qed.

(** The order of the ledger is an invariant of the session. *)
Lemma run_sorted op w r w' :
  run op w = Some (r, w') →
  ledger_sorted (nak_history_ (link w)) →
  ledger_sorted (nak_history_ (link w')).
Proof.
  destruct op as [header|[[mid sid] message]| |now|now|message| |message
                 |remote_peer|message|remote_peer low high|message
                 |remote_peer low high|reactor nak_ok syn_ok active|
                 |now now'| | | | |];
    unfold run.
  - members; crunch.
  - unfold sample_received. simpl. destruct mid; [destruct sid|..];
      members; crunch.
  - members; crunch.
  - intros Hrun Hsorted.
    destruct (expire_naks_run now w) as (w0 & Hrun0 & Hlink & _).
    rewrite Hrun0 in Hrun. simplify_eq. rewrite Hlink. simpl.
    by apply upper_bound_rest_sorted.
  - intros Hrun Hsorted.
    destruct (send_naks_run now w) as (w0 & ms & Hrun0 & Hlink & _).
    rewrite Hrun0 in Hrun. simplify_eq. rewrite Hlink. simpl.
    by apply requests_sorted.
  - members; crunch.
  - members; crunch.
  - members; crunch.
  - members; crunch.
  - members; crunch.
  - members; crunch.
  - members; crunch.
  - members; crunch.
  - members; crunch.
  - members; crunch.
  - unfold NakWatchdog_on_interval. exec. intros Hrun Hsorted.
    destruct (expire_naks_run now w) as (w0 & Hrun0 & Hlink0 & _).
    destruct (send_naks_run now' w0) as (w1 & ms & Hrun1 & Hlink1 & _).
    rewrite Hrun0, Hrun1 in Hrun. simplify_eq. rewrite Hlink1, Hlink0. simpl.
    by apply requests_sorted, upper_bound_rest_sorted.
  - members; crunch.
  - members; crunch.
  - members; crunch.
  - members; crunch.
  - members; crunch.
Qed.

(** Every session that starts from a fresh link keeps its ledger sorted. *)
Lemma run_all_sorted ops w r w' :
  run_all ops w = Some (r, w') →
  ledger_sorted (nak_history_ (link w)) →
  ledger_sorted (nak_history_ (link w')).
Proof.
  unfold run_all. revert w. induction ops as [|op ops IH]; intros w.
  - intros [= <- <-]. done.
  - rewrite for_each_cons.
    destruct (run op w) as [[[] w1]|] eqn:Hop; [|done].
    intros Hrun Hsorted. apply (IH w1 Hrun).
    by apply (run_sorted op w _ w1 Hop).
Qed.

Lemma fresh_sorted config header local_peer remote_peer :
  ledger_sorted
    (nak_history_ (ReliableMulticast_ (DS := DS) config header
                     local_peer remote_peer)).
Proof. constructor. Qed.

Lemma run_all_acked ops w r w' :
  run_all ops w = Some (r, w') →
  acked_ (link w) = true → acked_ (link w') = true.
Proof.
  unfold run_all. revert w. induction ops as [|op ops IH]; intros w.
  - intros [= <- <-]. done.
  - rewrite for_each_cons.
    destruct (run op w) as [[[] w1]|] eqn:Hop; [|done].
    intros Hrun Hacked. apply (IH w1 Hrun).
    destruct (run_acked op w _ w1 Hop) as [-> | (_ & -> & _)]; done.
Qed.

(** C5.  The acknowledged flag: it is [false] in a link that was just
    constructed; [acked] reports it and changes nothing; an operation
    that finds it [false] and leaves it [true] is the delivery of a
    handshake acknowledgement whose destination field is the local peer,
    which also cancels the handshake watchdog and calls
    [check_fully_association] on the transport; every such delivery does
    so; and once the flag is [true] no sequence of operations of the
    session makes it [false] again. *)
Theorem acked_set_only_by_synack :
  (∀ config header local_peer remote_peer,
     acked_ (ReliableMulticast_ (DS := DS) config header
               local_peer remote_peer) = false)
  ∧ (∀ w, acked w = Some (acked_ (link w), w))
  ∧ (∀ op w r w',
       run op w = Some (r, w') →
       acked_ (link w) = false → acked_ (link w') = true →
       delivers_synack (local_peer_ (link w)) op
       ∧ syn_watchdog_ (link w') = idle
       ∧ calls w' = calls w ++ [call_check_fully_association])
  ∧ (∀ op w,
       delivers_synack (local_peer_ (link w)) op →
       ∃ w',
         run op w = Some (tt, w')
         ∧ acked_ (link w') = true
         ∧ syn_watchdog_ (link w') = idle
         ∧ calls w' = calls w ++ [call_check_fully_association])
  ∧ (∀ ops w r w',
       run_all ops w = Some (r, w') →
       acked_ (link w) = true → acked_ (link w') = true).
Proof.
  split; [done|]. split; [done|]. split; [|split].
  - intros op w r w' Hrun Hbefore Hafter.
    destruct (run_acked op w r w' Hrun) as [Hsame | (Hop & _ & Hrest)].
    + congruence.
    + done.
  - apply synack_delivered.
  - apply run_all_acked.
Qed.

End Session.

Section Trackers.

(** [trackers_bounded] is an invariant of the session: the link changes
    trackers only through the constructor, [update] and [skip]. *)

Implicit Types (w : World (DS := SequenceTracker.t)) (op : Operation).

Lemma expire_loop_bounded entries w w' :
  for_each expire_nak entries w = Some (tt, w') →
  trackers_bounded w → trackers_bounded w'.
Proof.
  unfold trackers_bounded.
  revert w. induction entries as [|[time [peer mark]] entries IH]; intros w.
  - by intros [= <-].
  - rewrite for_each_cons, expire_nak_run.
    intros Hrun Hw. apply (IH _ Hrun). clear Hrun.
    destruct (sequences_ (link w) !! peer) as [d|] eqn:Hd; [|done].
    destruct (DisjointSequence.value d <? mark); [|done].
    simpl. apply map_Forall_insert_2; [|done].
    apply SequenceTrackerFacts.skip_bounded.
    by apply (map_Forall_lookup_1 _ _ _ _ Hw Hd).
Qed.

Lemma expire_naks_bounded now w w' :
  expire_naks now w = Some (tt, w') →
  trackers_bounded w → trackers_bounded w'.
Proof.
  unfold expire_naks. exec.
  destruct (upper_bound _ _).1 as [|entry entries]; [by intros [= <-]|].
  destruct (for_each expire_nak (entry :: entries) w) as [[[] w1]|] eqn:Hloop;
    [|done].
  intros [= <-] Hw. unfold trackers_bounded. simpl.
  by apply (expire_loop_bounded _ _ _ Hloop).
Qed.

Lemma send_naks_bounded now w w' :
  send_naks now w = Some (tt, w') →
  trackers_bounded w → trackers_bounded w'.
Proof.
  intros Hrun. destruct (send_naks_run now w) as (w0 & ms & Hrun0 & Hlink & _).
  rewrite Hrun0 in Hrun. simplify_eq. unfold trackers_bounded.
  by rewrite Hlink.
Qed.

Lemma header_received_bounded header w accepted w' :
  header_received header w = Some (accepted, w') →
  trackers_bounded w → trackers_bounded w'.
Proof.
  unfold header_received, trackers_bounded. exec.
  destruct (sequences_ (link w) !! source_ header) as [d|] eqn:Hd;
    intros [= <- <-] Hw; simpl; [|done].
  apply map_Forall_insert_2; [|done].
  apply SequenceTrackerFacts.update_bounded.
  by apply (map_Forall_lookup_1 _ _ _ _ Hw Hd).
Qed.

Lemma syn_received_bounded message w w' :
  syn_received message w = Some (tt, w') →
  trackers_bounded w → trackers_bounded w'.
Proof.
  unfold syn_received, trackers_bounded.
  destruct message as [|remote_peer [|local_peer rest]]; exec; try done.
  case_bool_decide as Hlocal; [by intros [= <-]|].
  match goal with |- context [send_synack _ ?w0] =>
    destruct (send_synack_run remote_peer w0) as (w1 & -> & Hlink & _)
  end.
  intros [= <-] Hw. rewrite Hlink. simpl. unfold sequences_insert.
  destruct (sequences_ (link w) !! remote_peer); [done|].
  apply map_Forall_insert_2; [|done].
  apply SequenceTrackerFacts.make_bounded.
Qed.

Lemma run_bounded op w w' :
  run op w = Some (tt, w') →
  trackers_bounded w → trackers_bounded w'.
Proof.
  destruct op as [header|[[mid sid] message]| |now|now|message| |message
                 |remote_peer|message|remote_peer low high|message
                 |remote_peer low high|reactor nak_ok syn_ok active|
                 |now now'| | | | |];
    unfold run.
  - exec. destruct (header_received header w) as [[accepted w1]|] eqn:Hrun;
      [|done].
    intros [= <-]. by apply (header_received_bounded _ _ _ _ Hrun).
  - unfold sample_received. simpl. destruct mid; [destruct sid|..].
    + apply syn_received_bounded.
    + unfold synack_received, trackers_bounded. crunch.
    + unfold nak_received, trackers_bounded. crunch.
    + unfold nakack_received, trackers_bounded. crunch.
    + unfold trackers_bounded. crunch.
    + unfold trackers_bounded. crunch.
    + unfold trackers_bounded. crunch.
  - unfold acked, trackers_bounded. crunch.
  - apply expire_naks_bounded.
  - apply send_naks_bounded.
  - apply syn_received_bounded.
  - unfold send_syn, trackers_bounded. crunch.
  - unfold synack_received, trackers_bounded. crunch.
  - unfold send_synack, trackers_bounded. crunch.
  - unfold nak_received, trackers_bounded. crunch.
  - unfold send_nak, trackers_bounded. crunch.
  - unfold nakack_received, trackers_bounded. crunch.
  - unfold send_nakack, trackers_bounded. crunch.
  - unfold join_i, trackers_bounded. crunch.
  - unfold leave_i, trackers_bounded. crunch.
  - unfold NakWatchdog_on_interval. exec.
    destruct (expire_naks now w) as [[[] w1]|] eqn:Hexpire; [|done].
    intros Hsend Hw. apply (send_naks_bounded _ _ _ Hsend).
    by apply (expire_naks_bounded _ _ _ Hexpire).
  - unfold SynWatchdog_on_interval, send_syn, trackers_bounded. crunch.
  - unfold SynWatchdog_on_timeout, trackers_bounded. crunch.
  - unfold NakWatchdog_next_interval, trackers_bounded. crunch.
  - unfold SynWatchdog_next_interval, trackers_bounded. crunch.
  - unfold SynWatchdog_next_timeout, trackers_bounded. crunch.
Qed.

Lemma run_all_bounded ops w w' :
  run_all ops w = Some (tt, w') →
  trackers_bounded w → trackers_bounded w'.
Proof.
  unfold run_all. revert w. induction ops as [|op ops IH]; intros w.
  - by intros [= <-].
  - rewrite for_each_cons.
    destruct (run op w) as [[[] w1]|] eqn:Hop; [|done].
    intros Hrun Hw. apply (IH w1 Hrun). by apply (run_bounded op w).
Qed.

Lemma fresh_bounded config header local_peer remote_peer cs al st :
  trackers_bounded
    {| link := ReliableMulticast_ config header local_peer remote_peer;
       calls := cs; allocations := al; statuses := st |}.
Proof. apply map_Forall_empty. Qed.

End Trackers.

(** ** Reception

    What the tracker of the specification has recorded, in terms of the
    numbers it was given. *)

Module SequenceTrackerHistory.

Import SequenceTracker.

Lemma make_recorded baseline seq :
  recorded (make baseline) seq = (seq <=? baseline).
Proof. unfold recorded, missing, make. simpl. by rewrite andb_true_r. Qed.

Lemma add_gap_covers seq r gs :
  Forall (λ g, g.2 + 1 ≠ r.1) gs →
  existsb (covers seq) (add_gap r gs) = existsb (covers seq) gs || covers seq r.
Proof.
  induction 1 as [|g gs Hg Hgs IH].
  - simpl. by rewrite orb_false_r.
  - destruct gs as [|g' gs'].
    + simpl. rewrite (proj2 (Z.eqb_neq _ _) Hg). simpl.
      by rewrite !orb_false_r.
    + change (add_gap r (g :: g' :: gs')) with (g :: add_gap r (g' :: gs')).
      cbn [existsb]. rewrite IH. cbn [existsb]. by rewrite orb_assoc.
Qed.

Ltac compare :=
  repeat (simpl;
          match goal with
          | |- context [?a <=? ?b] => destruct (Z.leb_spec a b)
          | |- context [?a <? ?b] => destruct (Z.ltb_spec a b)
          | |- context [?a =? ?b] => destruct (Z.eqb_spec a b)
          end);
  simpl; try done; try lia.

Lemma punch_covers seq seq' gs :
  existsb (covers seq') (flat_map (punch seq) gs)
  = existsb (covers seq') gs && negb (seq' =? seq).
Proof.
  induction gs as [|g gs IH]; simpl; [done|].
  rewrite existsb_app, IH. clear IH.
  assert (existsb (covers seq') (punch seq g)
          = covers seq' g && negb (seq' =? seq)) as ->.
  { unfold punch, covers. compare. }
  destruct (covers seq' g), (existsb (covers seq') gs), (seq' =? seq); done.
Qed.

Lemma update_recorded seq seq' d :
  bounded d →
  recorded (update seq d).2 seq' = recorded d seq' || (seq' =? seq).
Proof.
  unfold bounded, recorded, update, missing. intros Hd.
  destruct (Z.ltb_spec (high d) seq) as [Hhigh|Hhigh]; simpl.
  - assert (existsb (covers seq) (gaps d) = false) as Hseq.
    { apply SequenceTrackerFacts.below_uncovered.
      eapply Forall_impl; [exact Hd|]. simpl. intros; lia. }
    assert (high d < seq' → existsb (covers seq') (gaps d) = false) as Habove.
    { intros Hseq'. apply SequenceTrackerFacts.below_uncovered.
      eapply Forall_impl; [exact Hd|]. simpl. intros; lia. }
    destruct (Z.leb_spec (high d + 1) (seq - 1)) as [Hgap|Hgap].
    + rewrite add_gap_covers.
      2: { eapply Forall_impl; [exact Hd|]. simpl. intros; lia. }
      unfold covers at 2. simpl.
      destruct (Z.eqb_spec seq' seq) as [->|Hne].
      * rewrite Hseq. compare.
      * destruct (Z.leb_spec seq' (high d)) as [Hle|Hgt].
        -- compare; by destruct (existsb (covers seq') (gaps d)).
        -- rewrite (Habove Hgt). compare.
    + destruct (Z.eqb_spec seq' seq) as [->|Hne].
      * rewrite Hseq. compare.
      * destruct (Z.leb_spec seq' (high d)) as [Hle|Hgt].
        -- compare; by destruct (existsb (covers seq') (gaps d)).
        -- compare.
  - destruct (existsb (covers seq) (gaps d)) eqn:Hmiss; cbn [snd high gaps].
    + rewrite punch_covers.
      destruct (Z.eqb_spec seq' seq) as [->|Hne]; simpl.
      * rewrite andb_false_r. compare.
      * by rewrite andb_true_r, orb_false_r.
    + destruct (Z.eqb_spec seq' seq) as [->|Hne]; [|by rewrite orb_false_r].
      rewrite Hmiss. compare.
Qed.

End SequenceTrackerHistory.

Lemma not_elem_of_cons_bool `{EqDecision A} (x y : A) (l : list A) :
  bool_decide (x ∉ y :: l) = negb (bool_decide (x = y)) && bool_decide (x ∉ l).
Proof.
  destruct (decide (x = y)) as [->|Hne].
  - rewrite (bool_decide_eq_true_2 (y = y)) by done. simpl.
    apply bool_decide_eq_false_2. intros Hn. apply Hn. left.
  - rewrite (bool_decide_eq_false_2 (x = y)) by done. simpl.
    apply bool_decide_ext. rewrite not_elem_of_cons.
    split; [by intros [_ ?]|by split].
Qed.

Section Reception.

Implicit Types (w : World (DS := SequenceTracker.t)).

Lemma header_received_run w header :
  header_received header w =
  Some (match sequences_ (link w) !! source_ header with
        | None =>
            (true,
             {| link := set_recvd_header header (link w);
                calls := calls w; allocations := allocations w;
                statuses := statuses w |})
        | Some d =>
            (negb (SequenceTracker.recorded d (sequence_ header)),
             {| link :=
                  set_sequences
                    (<[source_ header :=
                         (SequenceTracker.update (sequence_ header) d).2]>
                       (sequences_ (link w)))
                    (set_recvd_header header (link w));
                calls := calls w; allocations := allocations w;
                statuses := statuses w |})
        end).
Proof.
  unfold header_received. exec.
  destruct (sequences_ (link w) !! source_ header) as [d|] eqn:Hd; simpl.
  - by rewrite SequenceTrackerFacts.update_fresh.
  - done.
Qed.

Lemma headers_received_run headers w :
  trackers_bounded w →
  ∃ answers w',
    headers_received headers w = Some (answers, w')
    ∧ length answers = length headers
    ∧ ∀ i header,
        headers !! i = Some header →
        answers !! i =
        Some (match sequences_ (link w) !! source_ header with
              | None => true
              | Some d =>
                  negb (SequenceTracker.recorded d (sequence_ header))
                  && bool_decide (header ∉ take i headers)
              end).
Proof.
  revert w. induction headers as [|h hs IH]; intros w Hw.
  - exists [], w. split; [done|]. split; [done|]. intros i header [=].
  - destruct (header_received h w) as [[a w1]|] eqn:Hh;
      [|by rewrite header_received_run in Hh].
    pose proof (header_received_bounded h w a w1 Hh Hw) as Hw1.
    destruct (IH w1 Hw1) as (answers & w' & Hrun & Hlen & Hanswers).
    exists (a :: answers), w'. split.
    { simpl. exec. by rewrite Hh, Hrun. }
    split; [simpl; by rewrite Hlen|].
    rewrite header_received_run in Hh.
    intros [|i] header Hi; simpl in *.
    + injection Hi as ->. f_equal.
      destruct (sequences_ (link w) !! source_ header);
        injection Hh as <- _; [|done].
      by rewrite andb_true_r.
    + rewrite (Hanswers i header Hi). f_equal.
      rewrite not_elem_of_cons_bool.
      destruct (sequences_ (link w) !! source_ h) as [d0|] eqn:Hd0;
        injection Hh as _ <-; simpl.
      * destruct (decide (source_ header = source_ h)) as [Hsame|Hother].
        -- rewrite Hsame, lookup_insert_eq, Hd0.
           rewrite SequenceTrackerHistory.update_recorded
             by (by apply (map_Forall_lookup_1 _ _ _ _ Hw Hd0)).
           assert (bool_decide (header = h)
                   = (sequence_ header =? sequence_ h)) as ->.
           { destruct (sequence_ header =? sequence_ h) eqn:Heq.
             - apply Z.eqb_eq in Heq. apply bool_decide_eq_true_2.
               destruct header, h. simpl in *. by subst.
             - apply Z.eqb_neq in Heq. apply bool_decide_eq_false_2.
               by intros ->. }
           rewrite negb_orb. by rewrite andb_assoc.
        -- rewrite lookup_insert_ne by done.
           rewrite (bool_decide_eq_false_2 (header = h)) by (by intros ->).
           done.
      * destruct (sequences_ (link w) !! source_ header) as [d|] eqn:Hd;
          [|done].
        rewrite (bool_decide_eq_false_2 (header = h)); [done|].
        intros ->. congruence.
Qed.

(** C2.  [header_received] returns for every header and does exactly
    this: for a source that is not in the sequence map the answer is
    [true] and only the stored header changes; for a tracked source the
    tracker is replaced by the one [update] yields for the header's
    sequence number, and the answer is [true] exactly when that number
    was not yet recorded by the tracker.  What is recorded is what was
    received: in a new tracker the numbers up to its baseline, and after
    an [update] the number given in addition to those before.  So over
    any run of headers handed in one after the other, a header of a
    tracked source is accepted exactly when its number was not recorded
    at the start of the run and no earlier header of the run is the same
    (same source, same number); a header of an unknown source is
    accepted each time. *)
Theorem header_received_accepts :
  (∀ w header,
     header_received header w =
     Some (match sequences_ (link w) !! source_ header with
           | None =>
               (true,
                {| link := set_recvd_header header (link w);
                   calls := calls w; allocations := allocations w;
                   statuses := statuses w |})
           | Some d =>
               (negb (SequenceTracker.recorded d (sequence_ header)),
                {| link :=
                     set_sequences
                       (<[source_ header :=
                            (SequenceTracker.update (sequence_ header) d).2]>
                          (sequences_ (link w)))
                       (set_recvd_header header (link w));
                   calls := calls w; allocations := allocations w;
                   statuses := statuses w |})
           end))
  ∧ (∀ baseline seq,
       SequenceTracker.recorded (SequenceTracker.make baseline) seq
       = (seq <=? baseline))
  ∧ (∀ d seq seq',
       SequenceTracker.bounded d →
       SequenceTracker.recorded (SequenceTracker.update seq d).2 seq'
       = SequenceTracker.recorded d seq' || (seq' =? seq))
  ∧ (∀ headers w,
       trackers_bounded w →
       ∃ answers w',
         headers_received headers w = Some (answers, w')
         ∧ length answers = length headers
         ∧ ∀ i header,
             headers !! i = Some header →
             answers !! i =
             Some (match sequences_ (link w) !! source_ header with
                   | None => true
                   | Some d =>
                       negb (SequenceTracker.recorded d (sequence_ header))
                       && bool_decide (header ∉ take i headers)
                   end)).
Proof.
  split; [apply header_received_run|].
  split; [apply SequenceTrackerHistory.make_recorded|].
  split.
  - intros d seq seq'. apply SequenceTrackerHistory.update_recorded.
  - apply headers_received_run.
Qed.

End Reception.

(** * Runs without a message buffer

    In [Example.exhausted] the next [ACE_NEW_NORETURN] leaves [data]
    null; [send_synack] and [send_nak] then log "failed to allocate
    message!" and return before [send_control]. *)



(** C4, as stated, fails when the buffer of a repair request cannot be
    allocated.  Peer 2 is tracked with the one gap 6..8: the request
    phase at time 10 records the ledger entry (10, 2, 9), logs the
    allocation failure, and sends no repair request for the gap. *)
Lemma send_naks_exhausted_records_without_request :
  ∃ w',
    send_naks 10 Example.exhausted = Some (tt, w')
    ∧ DisjointSequence.disjoint Example.tracker = true
    ∧ DisjointSequence.ranges Example.tracker = [(6, 8)]
    ∧ nak_history_ (link w') = [(10, (2, 9))]
    ∧ calls w' = [ACE_ERROR LM_ERROR (failed_to_allocate in_send_nak)]
    ∧ sent (calls w') = [].
Proof.
  eexists. split; [vm_compute; reflexivity|]. repeat split; done.
Qed.

(** The session of [Example.silence] runs, and leaves peer 2 tracked up
    to 10 with 1 to 9 missing and one request of time 4 outstanding. *)
Lemma silence_runs :
  run_all Example.silence (Example.world Example.fresh)
  = Some (tt, Example.silent).
Proof.
  unfold Example.silent.
  destruct (run_all Example.silence (Example.world Example.fresh))
    as [[[] w]|] eqn:Hrun; [done|].
  vm_compute in Hrun. discriminate Hrun.
Qed.

Lemma silent_ledger :
  nak_history_ (link Example.silent) = [(4, (2, 10))].
Proof. vm_compute. reflexivity. Qed.

Lemma silent_tracker :
  sequences_ (link Example.silent) !! 2
  = Some {| SequenceTracker.low := 0; SequenceTracker.high := 10;
            SequenceTracker.gaps := [(1, 9)] |}.
Proof. vm_compute. reflexivity. Qed.

Lemma silent_config :
  config_ (link Example.silent) = Example.config.
Proof. vm_compute. reflexivity. Qed.

Lemma silent_calls :
  calls Example.silent
  = [call_send_control (create_control MULTICAST_SYNACK [1; 2]);
     call_send_control (create_control MULTICAST_NAK [1; 2; 1; 9])].
Proof. vm_compute. reflexivity. Qed.

Lemma silent_sorted : ledger_sorted (nak_history_ (link Example.silent)).
Proof.
  apply (run_all_sorted _ _ _ _ silence_runs). apply fresh_sorted.
Qed.

(** C3, as stated, fails where a peer is silent.  Peer 2 shook hands
    at sequence number 0, its datagram of number 10 arrived, and the
    request phase of time 4 recorded the mark 10, the tracker's [high].
    Nothing else arrives.  The expire phase of time 8 (timeout 3) finds
    the entry expired and the tracker's [high] still at 10, which is not
    below the mark; yet it logs the skip of 9 datagrams and invokes
    [skip] with 10, which changes the tracker: the mark is compared with
    what the tracker converts to, its low-water mark 0. *)
Lemma expire_naks_skips_at_reached_high :
  let tracker :=
    {| SequenceTracker.low := 0; SequenceTracker.high := 10;
       SequenceTracker.gaps := [(1, 9)] |} in
  ∃ w',
    run_all Example.silence (Example.world Example.fresh)
    = Some (tt, Example.silent)
    ∧ nak_history_ (link Example.silent) = [(4, (2, 10))]
    ∧ sequences_ (link Example.silent) !! 2 = Some tracker
    ∧ ¬ SequenceTracker.high tracker < 10
    ∧ expire_naks 8 Example.silent = Some (tt, w')
    ∧ nak_history_ (link w') = []
    ∧ skips (calls w') = [(9, 2)]
    ∧ sequences_ (link w') !! 2 = Some (SequenceTracker.skip 10 tracker)
    ∧ SequenceTracker.skip 10 tracker ≠ tracker.
Proof.
  intros tracker.
  destruct (expire_naks_later_run Example.silent 6 8 4 2 10 tracker
              silent_ledger silent_tracker)
    as (_ & w' & Hrun & Hmap & Hledger & Hskips).
  - simpl. lia.
  - rewrite silent_config. simpl. lia.
  - rewrite silent_config. simpl. lia.
  - exists w'. split; [exact silence_runs|]. split; [exact silent_ledger|].
    split; [exact silent_tracker|]. split; [simpl; lia|].
    split; [exact Hrun|]. split; [exact Hledger|]. split.
    { rewrite Hskips, silent_calls. reflexivity. }
    split; [|discriminate].
    rewrite Hmap. apply lookup_insert_eq.
Qed.

(** C9, as stated, fails when the clock has advanced.  Peer 2 shakes
    hands at sequence number 0; its datagram of number 10 arrives and
    the request phase of time 4 records the mark 10; its datagram of
    number 20 arrives and the request phase of time 5 records the mark
    20.  The expire phase of time 7 (timeout 3, deadline 4) removes the
    first entry and skips to 10.  The expire phase of time 8 (deadline
    5), with nothing changed in between, removes the second entry, logs
    another skip and moves the tracker to 20. *)
Lemma expire_naks_later_run_skips :
  let session :=
    [op_syn_received [2; 1];
     op_header_received {| source_ := 2; sequence_ := 10 |};
     op_send_naks 4;
     op_header_received {| source_ := 2; sequence_ := 20 |};
     op_send_naks 5] in
  ∃ w w1 w2,
    run_all session (Example.world Example.fresh) = Some (tt, w)
    ∧ nak_history_ (link w) = [(4, (2, 10)); (5, (2, 20))]
    ∧ expire_naks 7 w = Some (tt, w1)
    ∧ nak_history_ (link w1) = [(5, (2, 20))]
    ∧ skips (calls w1) = [(18, 2)]
    ∧ expire_naks 8 w1 = Some (tt, w2)
    ∧ nak_history_ (link w2) = []
    ∧ skips (calls w2) = [(18, 2); (9, 2)]
    ∧ sequences_ (link w1) !! 2
      = Some {| SequenceTracker.low := 10; SequenceTracker.high := 20;
                SequenceTracker.gaps := [(11, 19)] |}
    ∧ sequences_ (link w2) !! 2
      = Some {| SequenceTracker.low := 20; SequenceTracker.high := 20;
                SequenceTracker.gaps := [] |}.
Proof.
  intros session. eexists _, _, _.
  split; [vm_compute; reflexivity|]. split; [reflexivity|].
  split; [vm_compute; reflexivity|]. split; [reflexivity|].
  split; [reflexivity|].
  split; [vm_compute; reflexivity|]. repeat split; reflexivity.
Qed.

(** * The theorems at work on the example session *)

Module Witness.

Import Example.

(** Peer 2 is tracked up to 9 with 6 to 8 missing, peer 7 is unknown:
    the missing numbers 7 and 6 are accepted, 7 is refused when it comes
    again later, the unknown peer is accepted both times, 12 is new and
    9 was received before. *)
Lemma header_received_accepts_witness :
  let headers :=
    [{| source_ := 2; sequence_ := 7 |}; {| source_ := 2; sequence_ := 6 |};
     {| source_ := 7; sequence_ := 3 |}; {| source_ := 2; sequence_ := 7 |};
     {| source_ := 2; sequence_ := 12 |}; {| source_ := 2; sequence_ := 9 |};
     {| source_ := 7; sequence_ := 3 |}] in
  trackers_bounded (world tracking)
  ∧ ∃ w',
      headers_received headers (world tracking)
      = Some ([true; true; true; false; true; false; true], w').
Proof.
  intros headers.
  assert (trackers_bounded (world tracking)) as Hbounded.
  { apply map_Forall_singleton. repeat constructor. }
  split; [exact Hbounded|].
  destruct header_received_accepts as (_ & _ & _ & Hrun).
  destruct (Hrun headers (world tracking) Hbounded)
    as (answers & w' & Hrun' & Hlength & Hanswers).
  exists w'. rewrite Hrun'. f_equal. f_equal.
  pose proof (Hanswers 0%nat _ eq_refl) as H0.
  pose proof (Hanswers 1%nat _ eq_refl) as H1.
  pose proof (Hanswers 2%nat _ eq_refl) as H2.
  pose proof (Hanswers 3%nat _ eq_refl) as H3.
  pose proof (Hanswers 4%nat _ eq_refl) as H4.
  pose proof (Hanswers 5%nat _ eq_refl) as H5.
  pose proof (Hanswers 6%nat _ eq_refl) as H6.
  clear Hanswers Hrun'.
  do 7 (destruct answers as [|? answers]; [discriminate Hlength|]).
  destruct answers; [|discriminate Hlength].
  vm_compute in H0, H1, H2, H3, H4, H5, H6.
  congruence.
Defined.

(** The expire phase of time 8 in the session of the silent peer. *)
Lemma expire_naks_skips_silent_peers_witness :
  ledger_sorted (nak_history_ (link silent))
  ∧ ∃ w',
      expire_naks 8 silent = Some (tt, w')
      ∧ expiry_policy (sequences_ (link silent))
          (filter (λ e, e.1 ≤ 8 - nak_timeout_ (config_ (link silent)))
                  (nak_history_ (link silent)))
          (sequences_ (link w'))
      ∧ nak_history_ (link w')
        = filter (λ e, 8 - nak_timeout_ (config_ (link silent)) < e.1)
                 (nak_history_ (link silent)).
Proof.
  split; [exact silent_sorted|].
  exact (expire_naks_skips_silent_peers silent 8 silent_sorted).
Defined.

(** A second run at the same time changes nothing. *)
Lemma expire_naks_idempotent_witness :
  ∃ w',
    expire_naks 8 silent = Some (tt, w')
    ∧ expire_naks 8 w' = Some (tt, w').
Proof.
  destruct (expire_naks_idempotent silent 8) as (w' & Hrun & Hagain).
  exists w'. split; [exact Hrun|]. apply Hagain. left. lia.
Defined.

(** Peer 2 misses 6 and 8 and the first buffer cannot be allocated:
    the request for 6 is answered by an allocation error, the request
    for 8 is sent, and the ledger holds the one entry of the peer. *)
Lemma send_naks_requests_each_gap_witness :
  ∃ w',
    send_naks 10 starved = Some (tt, w')
    ∧ calls w'
      = [ACE_ERROR LM_ERROR (failed_to_allocate in_send_nak);
         call_send_control (create_control MULTICAST_NAK [1; 2; 8; 8])]
    ∧ sent (calls w') = [create_control MULTICAST_NAK [1; 2; 8; 8]]
    ∧ filter (requested_of 2) (nak_history_ (link w')) ≡ₚ [(10, (2, 9))].
Proof.
  destruct (send_naks_requests_each_gap starved 10)
    as (w' & Hrun & _ & Hcalls & _ & _ & Hsent & _ & _ & Hpeer).
  exists w'. split; [exact Hrun|]. split.
  { rewrite Hcalls. vm_compute. reflexivity. }
  split.
  { rewrite Hsent. vm_compute. reflexivity. }
  destruct (Hpeer 2) as (Hledger & _ & _). rewrite Hledger. reflexivity.
Defined.

(** A handshake acknowledgement for the local peer sets the flag; once
    set, the flag survives a repair cycle, a further handshake request
    and the departure from the group. *)
Lemma acked_set_only_by_synack_witness :
  (∃ w1,
     run (op_synack_received [2; 1]) (world fresh) = Some (tt, w1)
     ∧ acked_ (link w1) = true)
  ∧ ∃ w2,
      run_all [op_nak_on_interval 8 8; op_syn_received [3; 1]; op_leave_i]
        (world (set_acked true repairing)) = Some (tt, w2)
      ∧ acked_ (link w2) = true.
Proof.
  destruct (acked_set_only_by_synack (DS := SequenceTracker.t))
    as (_ & _ & _ & Hset & Hkeep).
  split.
  - destruct (Hset (op_synack_received [2; 1]) (world fresh))
      as (w1 & Hrun & Hacked & _).
    + exists 2, []. left. reflexivity.
    + exists w1. split; [exact Hrun | exact Hacked].
  - destruct (run_all [op_nak_on_interval 8 8; op_syn_received [3; 1];
                       op_leave_i] (world (set_acked true repairing)))
      as [[[] w2]|] eqn:Hall.
    + exists w2. split; [reflexivity|].
      exact (Hkeep _ _ _ _ Hall eq_refl).
    + vm_compute in Hall. discriminate Hall.
Defined.

(** A handshake meant for peer 7 is ignored by peer 1. *)
Lemma misaddressed_handshake_ignored_witness :
  7 ≠ local_peer_ (link (world tracking))
  ∧ syn_received [2; 7] (world tracking) = Some (tt, world tracking)
  ∧ synack_received [2; 7] (world tracking) = Some (tt, world tracking).
Proof.
  assert (7 ≠ local_peer_ (link (world tracking))) as Hne.
  { simpl. lia. }
  split; [exact Hne|].
  destruct (misaddressed_handshake_ignored (world tracking) 2 7 [] Hne)
    as (Hsyn & Hsynack & _).
  split; [exact Hsyn | exact Hsynack].
Defined.



End Witness.

(** * The effects of the member functions *)

Section Sending.

Context {DS : Type} `{!DisjointSequence.Ops DS}.
Implicit Types (w : World (DS := DS)).

(** What a send function adds to the calls: one [send_control], followed
    by the error if its status is one, or the allocation error alone. *)

Lemma send_syn_run w :
  ∃ w',
    send_syn w = Some (tt, w')
    ∧ link w' = link w
    ∧ calls w' =
      calls w
      ++ (if allocates w then
            call_send_control
              (create_control MULTICAST_SYN
                 [local_peer_ (link w); remote_peer_ (link w)])
            :: match statuses w with
               | Some e :: _ =>
                   [ACE_ERROR LM_ERROR (send_control_failed in_send_syn e)]
               | _ => []
               end
          else [ACE_ERROR LM_ERROR (failed_to_allocate in_send_syn)]).
Proof.
  unfold send_syn, allocates. exec.
  destruct (allocations w) as [|[] ?]; simpl;
    try destruct (statuses w) as [|[?|] ?]; simpl;
    eexists; (split; [reflexivity|]); simpl; (split; [done|]);
    rewrite <- ?app_assoc; done.
Qed.

Lemma send_synack_calls remote_peer w :
  ∃ w' added,
    send_synack remote_peer w = Some (tt, w')
    ∧ link w' = link w
    ∧ calls w' = calls w ++ added
    ∧ Forall sending_call added.
Proof.
  unfold send_synack. exec.
  destruct (allocations w) as [|[] ?]; simpl;
    try destruct (statuses w) as [|[?|] ?]; simpl;
    eexists _, _; (split; [reflexivity|]); simpl; (split; [done|]);
    rewrite <- ?app_assoc; (split; [reflexivity|]); repeat constructor.
Qed.

Lemma send_nak_calls remote_peer low high w :
  ∃ w' added,
    send_nak remote_peer low high w = Some (tt, w')
    ∧ link w' = link w
    ∧ calls w' = calls w ++ added
    ∧ Forall sending_call added.
Proof.
  unfold send_nak. exec.
  destruct (allocations w) as [|[] ?]; simpl;
    try destruct (statuses w) as [|[?|] ?]; simpl;
    eexists _, _; (split; [reflexivity|]); simpl; (split; [done|]);
    rewrite <- ?app_assoc; (split; [reflexivity|]); repeat constructor.
Qed.

Lemma send_nak_loop_calls remote_peer ranges w :
  ∃ w' added,
    for_each (λ range : Z * Z, send_nak remote_peer range.1 range.2) ranges w
    = Some (tt, w')
    ∧ link w' = link w
    ∧ calls w' = calls w ++ added
    ∧ Forall sending_call added.
Proof.
  revert w. induction ranges as [|range ranges IH]; intros w.
  - exists w, []. simpl. by rewrite app_nil_r.
  - rewrite for_each_cons.
    destruct (send_nak_calls remote_peer range.1 range.2 w)
      as (w1 & a1 & -> & Hlink1 & Hcalls1 & Ha1).
    destruct (IH w1) as (w' & a & Hrun & Hlink & Hcalls & Ha).
    exists w', (a1 ++ a). split; [done|]. split; [congruence|].
    split; [by rewrite Hcalls, Hcalls1, <- app_assoc|].
    by apply Forall_app.
Qed.

Lemma send_naks_loop_calls now its w :
  ∃ w' added,
    for_each (send_naks_to now) its w = Some (tt, w')
    ∧ calls w' = calls w ++ added
    ∧ Forall sending_call added.
Proof.
  revert w. induction its as [|it its IH]; intros w.
  - exists w, []. simpl. by rewrite app_nil_r.
  - rewrite for_each_cons. unfold send_naks_to at 1.
    destruct (DisjointSequence.disjoint it.2).
    + exec.
      match goal with |- context [for_each _ (DisjointSequence.ranges _) ?w0] =>
        destruct (send_nak_loop_calls it.1 (DisjointSequence.ranges it.2) w0)
          as (w1 & a1 & -> & Hlink1 & Hcalls1 & Ha1)
      end.
      destruct (IH w1) as (w' & a & Hrun & Hcalls & Ha).
      exists w', (a1 ++ a). split; [done|].
      split; [by rewrite Hcalls, Hcalls1, <- app_assoc|].
      by apply Forall_app.
    + exec. destruct (IH w) as (w' & a & Hrun & Hcalls & Ha).
      by exists w', a.
Qed.

Lemma send_naks_calls now w :
  ∃ w' added,
    send_naks now w = Some (tt, w')
    ∧ calls w' = calls w ++ added
    ∧ Forall sending_call added.
Proof. unfold send_naks. exec. apply send_naks_loop_calls. Qed.

End Sending.

Lemma missing_sequences_app (cs cs' : list Call) :
  missing_sequences (cs ++ cs') = missing_sequences cs ++ missing_sequences cs'.
Proof. unfold missing_sequences. apply omap_app. Qed.

Lemma notifications_app (cs cs' : list Call) :
  notifications (cs ++ cs') = notifications cs ++ notifications cs'.
Proof. unfold notifications. apply omap_app. Qed.

Lemma sending_calls_quiet (added : list Call) :
  Forall sending_call added →
  missing_sequences added = [] ∧ notifications added = [] ∧ skips added = [].
Proof.
  induction 1 as [|c cs Hc Hcs (IH1 & IH2 & IH3)]; [done|].
  destruct c as [[] []| | | |]; simpl in *; done.
Qed.

Section Effects.

Context {DS : Type} `{!DisjointSequence.Ops DS}.
Implicit Types (w : World (DS := DS)) (op : Operation).

Lemma expire_loop_effect entries w :
  ∃ w' added,
    for_each expire_nak entries w = Some (tt, w')
    ∧ calls w' = calls w ++ added
    ∧ dom (sequences_ (link w')) = dom (sequences_ (link w))
    ∧ (∀ p, p ∉ entries.*2.*1 →
            sequences_ (link w') !! p = sequences_ (link w) !! p)
    ∧ missing_sequences added
      = filter (λ p, p ∉ dom (sequences_ (link w))) entries.*2.*1
    ∧ (length added ≤ length entries)%nat
    ∧ sent added = []
    ∧ notifications added = [].
Proof.
  revert w. induction entries as [|[time [peer mark]] entries IH]; intros w.
  - exists w, []. simpl. by rewrite app_nil_r.
  - rewrite for_each_cons, expire_nak_run. rewrite !fmap_cons. simpl.
    destruct (sequences_ (link w) !! peer) as [d|] eqn:Hd.
    + assert (peer ∈ dom (sequences_ (link w))) as Hin
        by by apply elem_of_dom_2 in Hd.
      rewrite filter_cons, decide_False by (by intros Hn; apply Hn).
      destruct (DisjointSequence.value d <? mark).
      * match goal with |- context [for_each _ _ ?w0] =>
          destruct (IH w0)
            as (w' & a & Hrun & Hcalls & Hdom & Hother & Hmiss & Hlen & Hs & Hn)
        end.
        simpl in *. rewrite dom_insert_lookup_L in Hdom, Hmiss by done.
        eexists w', (_ :: a). split; [done|].
        split; [by rewrite Hcalls, <- app_assoc|]. split; [done|]. split.
        { intros p Hp. apply not_elem_of_cons in Hp as [Hne Hp].
          rewrite Hother by done. by rewrite lookup_insert_ne. }
        simpl. repeat split; try done. lia.
      * destruct (IH w)
          as (w' & a & Hrun & Hcalls & Hdom & Hother & Hmiss & Hlen & Hs & Hn).
        exists w', a. repeat split; try done.
        -- intros p Hp. apply not_elem_of_cons in Hp as [Hne Hp]. by apply Hother.
        -- lia.
    + assert (peer ∉ dom (sequences_ (link w))) as Hin
        by by apply not_elem_of_dom_2.
      rewrite filter_cons, decide_True by done.
      match goal with |- context [for_each _ _ ?w0] =>
        destruct (IH w0)
          as (w' & a & Hrun & Hcalls & Hdom & Hother & Hmiss & Hlen & Hs & Hn)
      end.
      simpl in *. eexists w', (_ :: a). split; [done|].
      split; [by rewrite Hcalls, <- app_assoc|]. split; [done|]. split.
      { intros p Hp. apply not_elem_of_cons in Hp as [Hne Hp]. by apply Hother. }
      simpl. rewrite Hmiss. repeat split; try done. lia.
Qed.

Lemma expire_naks_effect now w :
  let range :=
    upper_bound (now - nak_timeout_ (config_ (link w)))
                (nak_history_ (link w)) in
  ∃ w' added,
    expire_naks now w = Some (tt, w')
    ∧ link w' =
      set_nak_history range.2 (set_sequences (sequences_ (link w')) (link w))
    ∧ calls w' = calls w ++ added
    ∧ dom (sequences_ (link w')) = dom (sequences_ (link w))
    ∧ (∀ p, p ∉ range.1.*2.*1 →
            sequences_ (link w') !! p = sequences_ (link w) !! p)
    ∧ missing_sequences added
      = filter (λ p, p ∉ dom (sequences_ (link w))) range.1.*2.*1
    ∧ (length added ≤ length range.1)%nat
    ∧ sent added = []
    ∧ notifications added = [].
Proof.
  intros range.
  destruct (expire_naks_run now w) as (w0 & Hrun0 & Hlink0 & _).
  fold range in Hlink0. revert Hrun0. unfold expire_naks. exec. fold range.
  destruct range.1 as [|entry entries] eqn:Hexpired.
  - intros [= <-]. exists w, []. rewrite app_nil_r. repeat split; done.
  - destruct (expire_loop_effect (entry :: entries) w)
      as (w' & a & Hrun & Hcalls & Hdom & Hother & Hmiss & Hlen & Hs & Hn).
    rewrite Hrun. intros [= <-]. eexists _, a. split; [done|].
    split; [done|]. simpl. repeat split; done.
Qed.

Lemma header_received_effect header w :
  ∃ accepted w' m',
    header_received header w = Some (accepted, w')
    ∧ link w' = set_sequences m' (set_recvd_header header (link w))
    ∧ dom m' = dom (sequences_ (link w))
    ∧ (∀ p, p ≠ source_ header → m' !! p = sequences_ (link w) !! p)
    ∧ calls w' = calls w
    ∧ allocations w' = allocations w
    ∧ statuses w' = statuses w.
Proof.
  unfold header_received. exec.
  destruct (sequences_ (link w) !! source_ header) as [d|] eqn:Hd.
  - eexists _, _, _. split; [done|]. simpl. split; [done|].
    split; [by apply dom_insert_lookup_L|]. split; [|done].
    intros p Hp. by rewrite lookup_insert_ne.
  - eexists _, _, (sequences_ (link w)). split; [done|]. simpl.
    split; [by destruct w as [[]]|]. done.
Qed.

Lemma syn_received_effect message w r w' :
  syn_received message w = Some (r, w') →
  ∃ m' added,
    link w' = set_sequences m' (link w)
    ∧ dom (sequences_ (link w)) ⊆ dom m'
    ∧ calls w' = calls w ++ added
    ∧ Forall sending_call added.
Proof.
  unfold syn_received.
  destruct message as [|remote_peer [|local_peer rest]]; exec; try done.
  case_bool_decide as Hlocal.
  - intros [= <- <-]. exists (sequences_ (link w)), [].
    rewrite app_nil_r. split; [by destruct w as [[]]|]. done.
  - match goal with |- context [send_synack _ ?w0] =>
      destruct (send_synack_calls remote_peer w0)
        as (w1 & a & -> & Hlink & Hcalls & Ha)
    end.
    intros [= <- <-]. eexists _, a. split; [exact Hlink|]. simpl in *.
    split; [|done]. unfold sequences_insert.
    destruct (sequences_ (link w) !! remote_peer); [done|].
    apply dom_insert_subseteq.
Qed.

End Effects.

Lemma filter_none {A : Type} (P : A → Prop) `{!∀ x, Decision (P x)} (l : list A) :
  Forall (λ x, ¬ P x) l → filter P l = [].
Proof.
  induction 1 as [|x l Hx Hl IH]; [done|].
  by rewrite filter_cons, decide_False.
Qed.

Section Invariants.

Context {DS : Type} `{!DisjointSequence.Ops DS}.
Implicit Types (w : World (DS := DS)) (op : Operation).

Ltac settle :=
  unfold ledger_tracked in *; simpl in *;
  rewrite ?missing_sequences_app; simpl; rewrite ?app_nil_r;
  repeat split; try done.

Lemma send_naks_tracked now w w' :
  send_naks now w = Some (tt, w') → ledger_tracked w → ledger_tracked w'.
Proof.
  intros Hrun. destruct (send_naks_run now w) as (w0 & ms & Hrun0 & Hlink & _).
  rewrite Hrun0 in Hrun. simplify_eq. unfold ledger_tracked.
  rewrite Hlink. simpl. intros Hw.
  rewrite requests_Permutation. apply Forall_app. split; [done|].
  apply Forall_forall. intros e He.
  apply list_elem_of_In, in_flat_map in He as ([p d] & Hit & He).
  apply list_elem_of_In in Hit, He.
  apply list_elem_of_singleton in He as ->. simpl.
  apply list_elem_of_filter in Hit as [_ Hit].
  apply elem_of_elements_map in Hit. by apply elem_of_dom_2 in Hit.
Qed.

Lemma expire_naks_tracked now w w' :
  expire_naks now w = Some (tt, w') →
  ledger_tracked w →
  ledger_tracked w' ∧ missing_sequences (calls w') = missing_sequences (calls w).
Proof.
  intros Hrun.
  destruct (expire_naks_effect now w)
    as (w0 & a & Hrun0 & Hlink & Hcalls & Hdom & _ & Hmiss & _).
  rewrite Hrun0 in Hrun. simplify_eq. unfold ledger_tracked.
  pose proof (upper_bound_app (now - nak_timeout_ (config_ (link w)))
                (nak_history_ (link w))) as Happ.
  intros Hw. rewrite <- Happ in Hw. apply Forall_app in Hw as [Hold Hnew].
  split.
  - rewrite Hdom. by rewrite Hlink.
  - rewrite Hcalls, missing_sequences_app, Hmiss, filter_none, app_nil_r; [done|].
    apply Forall_fmap, Forall_fmap. eapply Forall_impl; [exact Hold|].
    simpl. intros e He Hn. by apply Hn.
Qed.

Lemma run_effect op w r w' :
  run op w = Some (r, w') →
  config_ (link w') = config_ (link w)
  ∧ local_peer_ (link w') = local_peer_ (link w)
  ∧ remote_peer_ (link w') = remote_peer_ (link w)
  ∧ dom (sequences_ (link w)) ⊆ dom (sequences_ (link w'))
  ∧ (ledger_tracked w →
     ledger_tracked w'
     ∧ missing_sequences (calls w') = missing_sequences (calls w)).
Proof.
  assert (∀ message w r w',
            syn_received message w = Some (r, w') →
            config_ (link w') = config_ (link w)
            ∧ local_peer_ (link w') = local_peer_ (link w)
            ∧ remote_peer_ (link w') = remote_peer_ (link w)
            ∧ dom (sequences_ (link w)) ⊆ dom (sequences_ (link w'))
            ∧ (ledger_tracked w →
               ledger_tracked w'
               ∧ missing_sequences (calls w') = missing_sequences (calls w)))
    as Hsyn.
  { clear. intros message w r w' Hrun.
    apply syn_received_effect in Hrun as (m' & a & Hlink & Hdom & Hcalls & Ha).
    apply sending_calls_quiet in Ha as (Hmiss & _).
    unfold ledger_tracked. rewrite Hlink, Hcalls, missing_sequences_app, Hmiss.
    simpl. rewrite app_nil_r. repeat split; try done.
    eapply Forall_impl; [eassumption|]. simpl. intros e He. by apply Hdom. }
  assert (∀ now w w',
            expire_naks now w = Some (tt, w') →
            config_ (link w') = config_ (link w)
            ∧ local_peer_ (link w') = local_peer_ (link w)
            ∧ remote_peer_ (link w') = remote_peer_ (link w)
            ∧ dom (sequences_ (link w)) ⊆ dom (sequences_ (link w'))
            ∧ (ledger_tracked w →
               ledger_tracked w'
               ∧ missing_sequences (calls w') = missing_sequences (calls w)))
    as Hexpire.
  { clear. intros now w w' Hrun.
    pose proof (expire_naks_tracked now w w' Hrun) as Htracked.
    destruct (expire_naks_effect now w)
      as (w0 & a & Hrun0 & Hlink & _ & Hdom & _).
    rewrite Hrun0 in Hrun. simplify_eq.
    rewrite Hdom. rewrite Hlink at 1 2 3. done. }
  assert (∀ now w w',
            send_naks now w = Some (tt, w') →
            config_ (link w') = config_ (link w)
            ∧ local_peer_ (link w') = local_peer_ (link w)
            ∧ remote_peer_ (link w') = remote_peer_ (link w)
            ∧ dom (sequences_ (link w)) ⊆ dom (sequences_ (link w'))
            ∧ (ledger_tracked w →
               ledger_tracked w'
               ∧ missing_sequences (calls w') = missing_sequences (calls w)))
    as Hsend.
  { clear. intros now w w' Hrun.
    pose proof (send_naks_tracked now w w' Hrun) as Htracked.
    destruct (send_naks_calls now w) as (w1 & a & Hrun1 & Hcalls & Ha).
    destruct (send_naks_run now w) as (w0 & ms & Hrun0 & Hlink & _).
    rewrite Hrun0 in Hrun, Hrun1. simplify_eq.
    apply sending_calls_quiet in Ha as (Hmiss & _).
    rewrite Hcalls, missing_sequences_app, Hmiss, app_nil_r.
    rewrite Hlink at 1 2 3 4. simpl. repeat split; try done.
    by apply Htracked. }
  destruct op as [header|[[mid sid] message]| |now|now|message| |message
                 |remote_peer|message|remote_peer low high|message
                 |remote_peer low high|reactor nak_ok syn_ok active|
                 |now now'| | | | |];
    unfold run.
  - exec. destruct (header_received_effect header w)
      as (acc & w0 & m' & -> & Hlink & Hdom & _ & Hcalls & _).
    intros [= <- <-]. unfold ledger_tracked.
    rewrite Hlink, Hcalls. simpl. rewrite Hdom. repeat split; done.
  - unfold sample_received. simpl. destruct mid; [destruct sid|..].
    + apply Hsyn.
    + members; crunch; settle.
    + members; crunch; settle.
    + members; crunch; settle.
    + crunch; settle.
    + crunch; settle.
    + crunch; settle.
  - members; crunch; settle.
  - destruct r. apply Hexpire.
  - destruct r. apply Hsend.
  - apply Hsyn.
  - members; crunch; settle.
  - members; crunch; settle.
  - members; crunch; settle.
  - members; crunch; settle.
  - members; crunch; settle.
  - members; crunch; settle.
  - members; crunch; settle.
  - members; crunch; settle.
  - members; crunch; settle.
  - unfold NakWatchdog_on_interval. exec.
    destruct (expire_naks now w) as [[[] w1]|] eqn:Hrun1; [|done].
    destruct r. intros Hrun2.
    destruct (Hexpire _ _ _ Hrun1) as (Hc1 & Hl1 & Hr1 & Hdom1 & Ht1).
    destruct (Hsend _ _ _ Hrun2) as (Hc2 & Hl2 & Hr2 & Hdom2 & Ht2).
    split; [congruence|]. split; [congruence|]. split; [congruence|].
    split; [by etrans|].
    intros Hw. destruct (Ht1 Hw) as [Hw1 <-]. by apply Ht2.
  - members; crunch; settle.
  - members; crunch; settle.
  - members; crunch; settle.
  - members; crunch; settle.
  - members; crunch; settle.
Qed.

End Invariants.

(** * Joining, leaving and the handshake between two links *)

Section Joining.

Context {DS : Type} `{!DisjointSequence.Ops DS}.
Implicit Types (w : World (DS := DS)) (op : Operation).

(** X1.  [join_i] on a link whose watchdogs are idle returns [true]
    exactly when there is a reactor, the repair watchdog could be
    scheduled and, for an active link, the handshake watchdog could be
    scheduled too.  On success the repair watchdog is scheduled and the
    handshake watchdog is scheduled exactly for an active link, and
    nothing is logged; on failure both watchdogs are idle (a repair
    watchdog that had been scheduled is cancelled again) and exactly one
    error is logged.  In both cases nothing but the watchdogs changes and
    no control message is sent. *)
Theorem join_i_outcome w reactor nak_ok syn_ok active :
  nak_watchdog_ (link w) = idle →
  syn_watchdog_ (link w) = idle →
  let ok := reactor && nak_ok && (negb active || syn_ok) in
  ∃ w',
    join_i reactor nak_ok syn_ok active w = Some (ok, w')
    ∧ nak_watchdog_ (link w') = (if ok then scheduled else idle)
    ∧ syn_watchdog_ (link w') = (if ok && active then scheduled else idle)
    ∧ set_nak_watchdog idle (set_syn_watchdog idle (link w')) = link w
    ∧ (if ok then calls w' = calls w
       else ∃ text, calls w' = calls w ++ [ACE_ERROR LM_ERROR text])
    ∧ sent (calls w') = sent (calls w).
Proof.
  intros Hnak Hsyn. unfold join_i.
  destruct w as [[c lp rp a nw sw rh sq nh] cs al st]. simpl in *. subst.
  destruct reactor, nak_ok, active, syn_ok; exec;
    eexists; (split; [reflexivity|]); simpl; repeat split; eauto;
    rewrite ?sent_app; simpl; by rewrite ?app_nil_r.
Qed.

(** X2.  Whatever [join_i] achieved on a link whose watchdogs were
    idle, [leave_i] brings the link back to the state before the join;
    leaving a second time changes nothing. *)
Theorem join_then_leave_restores w reactor nak_ok syn_ok active :
  nak_watchdog_ (link w) = idle →
  syn_watchdog_ (link w) = idle →
  ∃ ok w1 w2,
    join_i reactor nak_ok syn_ok active w = Some (ok, w1)
    ∧ leave_i w1 = Some (tt, w2)
    ∧ link w2 = link w
    ∧ leave_i w2 = Some (tt, w2).
Proof.
  intros Hnak Hsyn. unfold join_i, leave_i.
  destruct w as [[c lp rp a nw sw rh sq nh] cs al st]. simpl in *. subst.
  destruct reactor, nak_ok, active, syn_ok; exec;
    eexists _, _, _; (split; [reflexivity|]); simpl; repeat split; eauto.
Qed.

(** X3.  The handshake between two links, when both can allocate a
    buffer: the [MULTICAST_SYN] that [send_syn] hands to [send_control]
    on a link [a], delivered to the link [b] of the peer that [a] was
    created for, makes [b] register the local peer of [a] and send one
    [MULTICAST_SYNACK]; that message, delivered back to [a], sets the
    acknowledged flag of [a], cancels its handshake watchdog and notifies
    the transport once. *)
Theorem handshake_round_trip (a b : World (DS := DS)) :
  allocates a = true →
  allocates b = true →
  remote_peer_ (link a) = local_peer_ (link b) →
  ∃ a1 syn b1 synack a2,
    send_syn a = Some (tt, a1)
    ∧ sent (calls a1) = sent (calls a) ++ [syn]
    ∧ sample_received (deliver syn) b = Some (tt, b1)
    ∧ sent (calls b1) = sent (calls b) ++ [synack]
    ∧ local_peer_ (link a) ∈ dom (sequences_ (link b1))
    ∧ sample_received (deliver synack) a1 = Some (tt, a2)
    ∧ acked_ (link a2) = true
    ∧ syn_watchdog_ (link a2) = idle
    ∧ notifications (calls a2) = notifications (calls a) ++ [tt].
Proof.
  intros Ha Hb Hpeer.
  destruct (send_syn_run a) as (a1 & Hsyn & Hlink & Hcalls).
  rewrite Ha in Hcalls.
  set (syn := create_control MULTICAST_SYN
                [local_peer_ (link a); remote_peer_ (link a)]) in *.
  pose proof (syn_received_run (local_peer_ (link a)) [] b) as Hrecv.
  rewrite <- Hpeer in Hrecv.
  match type of Hrecv with _ = send_synack _ ?w0 =>
    destruct (send_synack_run (local_peer_ (link a)) w0)
      as (b1 & Hack & Hlinkb & Hsentb & _)
  end.
  simpl in Hsentb.
  replace (allocates _) with true in Hsentb by (by rewrite <- Hb).
  set (synack := create_control MULTICAST_SYNACK
                   [local_peer_ (link b); local_peer_ (link a)]) in *.
  destruct (synack_delivered (op_sample_received (deliver synack)) a1)
    as (a2 & Hrun & Hacked & Hidle & Hcalls2).
  { exists (local_peer_ (link b)), []. right. by rewrite Hlink. }
  exists a1, syn, b1, synack, a2. split; [done|]. split.
  { rewrite Hcalls, sent_app. f_equal. simpl. by destruct (statuses a) as [|[]]. }
  split; [unfold sample_received; simpl; by rewrite Hrecv|].
  split; [done|]. split.
  { rewrite Hlinkb. simpl. unfold sequences_insert.
    destruct (sequences_ (link b) !! local_peer_ (link a)) eqn:Hl.
    - by apply elem_of_dom_2 in Hl.
    - apply elem_of_dom. rewrite lookup_insert_eq. done. }
  split; [done|]. split; [done|]. split; [done|].
  rewrite Hcalls2, Hcalls, !notifications_app. simpl.
  by destruct (statuses a) as [|[]]; simpl; rewrite ?app_nil_r.
Qed.
End Joining.

(** * What a session keeps *)

Section Peers.

Context {DS : Type} `{!DisjointSequence.Ops DS}.
Implicit Types (w : World (DS := DS)) (op : Operation).

Lemma syn_received_peer message w r w' p :
  syn_received message w = Some (r, w') →
  p ∈ dom (sequences_ (link w')) →
  p ∉ dom (sequences_ (link w)) →
  (∃ rest, message = p :: local_peer_ (link w) :: rest)
  ∧ sequences_ (link w') !! p
    = Some (DisjointSequence.make (sequence_ (recvd_header_ (link w)))).
Proof.
  unfold syn_received.
  destruct message as [|remote_peer [|local_peer rest]]; exec; try done.
  case_bool_decide as Hlocal.
  - intros [= <- <-]. done.
  - match goal with |- context [send_synack _ ?w0] =>
      destruct (send_synack_calls remote_peer w0)
        as (w1 & a & -> & Hlink & _)
    end.
    intros [= <- <-]. rewrite Hlink. simpl. unfold sequences_insert.
    destruct (sequences_ (link w) !! remote_peer) eqn:Hknown; [done|].
    intros Hin Hout. apply dom_insert in Hin.
    apply elem_of_union in Hin as [Hin|Hin]; [|done].
    apply elem_of_singleton in Hin as ->.
    split; [|by rewrite lookup_insert_eq].
    exists rest. f_equal. f_equal.
    destruct (decide (local_peer = local_peer_ (link w))); congruence.
Qed.

Lemma run_peer op w r w' p :
  run op w = Some (r, w') →
  p ∈ dom (sequences_ (link w')) →
  p ∉ dom (sequences_ (link w)) →
  delivers_syn (local_peer_ (link w)) p op
  ∧ sequences_ (link w') !! p
    = Some (DisjointSequence.make (sequence_ (recvd_header_ (link w)))).
Proof.
  assert (Hexpire : ∀ now w w',
            expire_naks now w = Some (tt, w') →
            dom (sequences_ (link w')) = dom (sequences_ (link w))).
  { intros now w0 w1 Hrun.
    destruct (expire_naks_effect now w0)
      as (w2 & a & Hrun0 & _ & _ & Hdom & _).
    rewrite Hrun0 in Hrun. by simplify_eq. }
  assert (Hsend : ∀ now w w',
            send_naks now w = Some (tt, w') →
            sequences_ (link w') = sequences_ (link w)).
  { intros now w0 w1 Hrun.
    destruct (send_naks_run now w0) as (w2 & ms & Hrun0 & Hlink & _).
    rewrite Hrun0 in Hrun. simplify_eq. by rewrite Hlink. }
  destruct op as [header|[[mid sid] message]| |now|now|message| |message
                 |remote_peer|message|remote_peer low high|message
                 |remote_peer low high|reactor nak_ok syn_ok active|
                 |now now'| | | | |];
    unfold run.
  - intros Hrun.
    destruct (header_received_effect header w)
      as (acc & w0 & m' & Hrun0 & Hlink & Hdom & _).
    exec. rewrite Hrun0 in Hrun. simplify_eq. rewrite Hlink. simpl.
    by rewrite Hdom.
  - unfold sample_received. simpl. destruct mid; [destruct sid|..].
    + intros Hrun Hin Hout.
      destruct (syn_received_peer _ _ _ _ _ Hrun Hin Hout)
        as [[rest ->] Hmake].
      split; [|done]. exists rest. by right.
    + members; crunch.
    + members; crunch.
    + members; crunch.
    + crunch.
    + crunch.
    + crunch.
  - members; crunch.
  - destruct r. intros Hrun. by rewrite (Hexpire _ _ _ Hrun).
  - destruct r. intros Hrun. by rewrite (Hsend _ _ _ Hrun).
  - intros Hrun Hin Hout.
    destruct (syn_received_peer _ _ _ _ _ Hrun Hin Hout)
      as [[rest ->] Hmake].
    split; [|done]. exists rest. by left.
  - members; crunch.
  - members; crunch.
  - members; crunch.
  - members; crunch.
  - members; crunch.
  - members; crunch.
  - members; crunch.
  - members; crunch.
  - members; crunch.
  - unfold NakWatchdog_on_interval. exec.
    destruct (expire_naks now w) as [[[] w0]|] eqn:Hrun0; [|done].
    destruct r. intros Hrun.
    by rewrite (Hsend _ _ _ Hrun), (Hexpire _ _ _ Hrun0).
  - members; crunch.
  - members; crunch.
  - members; crunch.
  - members; crunch.
  - members; crunch.
Qed.

Lemma run_all_effect ops w r w' :
  run_all ops w = Some (r, w') →
  config_ (link w') = config_ (link w)
  ∧ local_peer_ (link w') = local_peer_ (link w)
  ∧ remote_peer_ (link w') = remote_peer_ (link w)
  ∧ dom (sequences_ (link w)) ⊆ dom (sequences_ (link w'))
  ∧ (ledger_tracked w →
     ledger_tracked w'
     ∧ missing_sequences (calls w') = missing_sequences (calls w)).
Proof.
  unfold run_all. revert w. induction ops as [|op ops IH]; intros w.
  - intros [= <- <-]. done.
  - rewrite for_each_cons.
    destruct (run op w) as [[[] w1]|] eqn:Hop; [|done].
    intros Hrun.
    destruct (run_effect op w _ w1 Hop) as (Hc & Hl & Hr & Hd & Ht).
    destruct (IH w1 Hrun) as (Hc' & Hl' & Hr' & Hd' & Ht').
    rewrite Hc', Hl', Hr', Hc, Hl, Hr.
    split; [done|]. split; [done|]. split; [done|]. split; [by etrans|].
    intros Htracked. destruct (Ht Htracked) as [Htw Hm].
    destruct (Ht' Htw) as [Htw' Hm']. split; [done|]. by rewrite Hm', Hm.
Qed.

(** X7.  Over any sequence of operations the link forgets no peer: the
    sequence map only gains keys.  A peer that is in the map afterwards
    and was not before has been registered by one of the operations, and
    that operation delivered a [MULTICAST_SYN] of this peer whose
    destination field is the local peer. *)
Theorem peers_registered_only_by_syn ops w r w' :
  run_all ops w = Some (r, w') →
  dom (sequences_ (link w)) ⊆ dom (sequences_ (link w'))
  ∧ ∀ p, p ∈ dom (sequences_ (link w')) →
         p ∉ dom (sequences_ (link w)) →
         ∃ op, op ∈ ops ∧ delivers_syn (local_peer_ (link w)) p op.
Proof.
  intros Hrun. split; [by apply (run_all_effect ops w r w')|].
  revert w Hrun. unfold run_all. induction ops as [|op ops IH]; intros w.
  - intros [= <- <-]. done.
  - rewrite for_each_cons.
    destruct (run op w) as [[[] w1]|] eqn:Hop; [|done].
    intros Hrun p Hin Hout.
    destruct (decide (p ∈ dom (sequences_ (link w1)))) as [Hmid|Hmid].
    + destruct (run_peer op w _ w1 p Hop Hmid Hout) as [Hsyn _].
      exists op. split; [left|done].
    + destruct (IH w1 Hrun p Hin Hmid) as (op' & Hop' & Hsyn).
      exists op'. split; [by right|].
      destruct (run_effect op w _ w1 Hop) as (_ & <- & _). done.
Qed.

(** X8.  No sequence of operations changes the configuration, the
    local peer or the remote peer of the link: the address checks of the
    handshake compare against the same peer during the whole session. *)
Theorem session_identity_fixed ops w r w' :
  run_all ops w = Some (r, w') →
  config_ (link w') = config_ (link w)
  ∧ local_peer_ (link w') = local_peer_ (link w)
  ∧ remote_peer_ (link w') = remote_peer_ (link w).
Proof.
  intros Hrun.
  destruct (run_all_effect ops w r w' Hrun) as (Hc & Hl & Hr & _). done.
Qed.

(** X9.  In every session that starts from a link as the constructor
    leaves it, each outstanding repair request names a peer of the
    sequence map, so the branch of [expire_naks] that logs "failed to
    find sequence for remote peer" is never taken. *)
Theorem ledger_names_tracked_peers ops config header local_peer remote_peer
    allocations statuses r w' :
  run_all ops
    {| link := ReliableMulticast_ config header local_peer remote_peer;
       calls := []; allocations := allocations; statuses := statuses |}
  = Some (r, w') →
  ledger_tracked w' ∧ missing_sequences (calls w') = [].
Proof.
  intros Hrun.
  destruct (run_all_effect ops _ r w' Hrun) as (_ & _ & _ & _ & Ht).
  apply Ht. constructor.
Qed.
End Peers.

(** * Reception and repair *)

Lemma upper_bound_expired deadline (h : NakHistory) :
  Forall (λ e, e.1 ≤ deadline) (upper_bound deadline h).1.
Proof.
  induction h as [|x h IH]; simpl; [done|].
  destruct (deadline <? x.1) eqn:Hx; [done|].
  destruct (upper_bound deadline h) as [expired rest]. simpl in *.
  constructor; [lia|done].
Qed.

Lemma length_requests {A B : Type} (f : A → B) (l : list A) :
  length (flat_map (λ x, [f x]) l) = length l.
Proof. induction l as [|x l IH]; simpl; [done|]. by rewrite IH. Qed.

Section Repair.

Context {DS : Type} `{!DisjointSequence.Ops DS}.
Implicit Types (w : World (DS := DS)) (op : Operation).

(** X10.  What [expire_naks] leaves alone, whatever the order of the
    ledger: it returns; it changes nothing of the link but the sequence
    map and the ledger; the ledger that remains is a tail of the old one;
    the sequence map keeps its keys, and a peer all of whose outstanding
    requests are later than the deadline keeps its tracker; at most one
    line is logged per request that is removed; no control message is
    sent, the transport is not notified and no buffer is allocated. *)
Theorem expire_naks_frame now w :
  let deadline := now - nak_timeout_ (config_ (link w)) in
  ∃ w' added,
    expire_naks now w = Some (tt, w')
    ∧ link w' =
      set_nak_history (nak_history_ (link w'))
        (set_sequences (sequences_ (link w')) (link w))
    ∧ nak_history_ (link w') `suffix_of` nak_history_ (link w)
    ∧ dom (sequences_ (link w')) = dom (sequences_ (link w))
    ∧ (∀ p, Forall (λ e, e.2.1 = p → deadline < e.1)
                   (nak_history_ (link w)) →
            sequences_ (link w') !! p = sequences_ (link w) !! p)
    ∧ calls w' = calls w ++ added
    ∧ (length added + length (nak_history_ (link w'))
       ≤ length (nak_history_ (link w)))%nat
    ∧ sent added = []
    ∧ notifications added = []
    ∧ allocations w' = allocations w
    ∧ statuses w' = statuses w.
Proof.
  intros deadline.
  destruct (expire_naks_effect now w)
    as (w' & added & Hrun & Hlink & Hcalls & Hdom & Hother & _ & Hlen
        & Hsent & Hnote).
  destruct (expire_naks_run now w)
    as (w0 & Hrun0 & _ & Hal & Hst & _).
  rewrite Hrun in Hrun0. simplify_eq.
  fold deadline in Hlink, Hother, Hlen.
  pose proof (upper_bound_app deadline (nak_history_ (link w))) as Happ.
  pose proof (upper_bound_expired deadline (nak_history_ (link w))) as Hexp.
  assert (Hrest : nak_history_ (link w0)
                  = (upper_bound deadline (nak_history_ (link w))).2).
  { by rewrite Hlink. }
  exists w0, added. split; [done|]. split.
  { rewrite Hrest. exact Hlink. }
  split.
  { rewrite Hrest. eexists. by rewrite Happ. }
  split; [done|]. split.
  { intros p Hyoung. apply Hother. intros Hin.
    apply list_elem_of_fmap in Hin as ([p' mark] & -> & Hin).
    apply list_elem_of_fmap in Hin as ([time request] & Heq & Hin).
    simpl in *. subst request.
    rewrite <- Happ in Hyoung. apply Forall_app in Hyoung as [Hyoung _].
    rewrite Forall_forall in Hyoung, Hexp.
    specialize (Hyoung _ Hin eq_refl). specialize (Hexp _ Hin).
    simpl in *. lia. }
  split; [done|]. split.
  { apply (f_equal length) in Happ. rewrite length_app in Happ.
    rewrite Hrest. lia. }
  done.
Qed.

(** X11.  [send_naks] does not consult the ledger: when no buffer
    allocation fails, two runs in a row hand the same repair requests to
    [send_control] twice, and the ledger gains two entries for every
    tracker that reports gaps. *)
Theorem send_naks_repeats_requests now now' w :
  never_exhausted w = true →
  let requesting :=
    filter (λ it, DisjointSequence.disjoint it.2 = true)
           (elements (sequences_ (link w))) in
  let requests := flat_map (naks_of (local_peer_ (link w))) requesting in
  ∃ w1 w2,
    send_naks now w = Some (tt, w1)
    ∧ send_naks now' w1 = Some (tt, w2)
    ∧ sent (calls w2) = sent (calls w) ++ requests ++ requests
    ∧ length (nak_history_ (link w2))
      = (length (nak_history_ (link w)) + 2 * disjoint_peers w)%nat.
Proof.
  intros Hw requesting requests.
  destruct (send_naks_run now w)
    as (w1 & ms1 & Hrun1 & Hlink1 & Hsent1 & _ & Hall1).
  destruct (Hall1 Hw) as [Hw1 ->].
  destruct (send_naks_run now' w1)
    as (w2 & ms2 & Hrun2 & Hlink2 & Hsent2 & _ & Hall2).
  destruct (Hall2 Hw1) as [_ ->].
  exists w1, w2. split; [done|]. split; [done|]. split.
  - rewrite Hsent2, Hsent1, Hlink1. simpl. by rewrite <- app_assoc.
  - rewrite Hlink2. simpl. rewrite requests_Permutation, length_app.
    rewrite length_requests. rewrite Hlink1 at 1 2. simpl.
    rewrite requests_Permutation, length_app, length_requests.
    unfold disjoint_peers. lia.
Qed.

(** X12.  The lifetime of a repair request on a sorted ledger: the
    entry that [send_naks] records at time [t] for a tracked peer with
    gaps is still in the ledger after a run of [expire_naks] at time
    [now] exactly when [t] is later than [now] minus the repair
    timeout. *)
Theorem request_lifetime t now w p d :
  ledger_sorted (nak_history_ (link w)) →
  sequences_ (link w) !! p = Some d →
  DisjointSequence.disjoint d = true →
  ∃ w1 w2,
    send_naks t w = Some (tt, w1)
    ∧ expire_naks now w1 = Some (tt, w2)
    ∧ (t, (p, DisjointSequence.high d)) ∈ nak_history_ (link w1)
    ∧ ((t, (p, DisjointSequence.high d)) ∈ nak_history_ (link w2)
       ↔ now - nak_timeout_ (config_ (link w)) < t).
Proof.
  intros Hsorted Hp Hd.
  destruct (send_naks_run t w) as (w1 & ms & Hrun1 & Hlink1 & _).
  destruct (expire_naks_run now w1) as (w2 & Hrun2 & Hlink2 & _).
  assert (Hin : (t, (p, DisjointSequence.high d)) ∈ nak_history_ (link w1)).
  { rewrite Hlink1. simpl. rewrite requests_Permutation.
    apply elem_of_app. right.
    apply list_elem_of_In, in_flat_map. exists (p, d). split.
    - apply list_elem_of_In, list_elem_of_filter. split; [done|].
      by apply elem_of_elements_map.
    - by left. }
  assert (Hsorted1 : ledger_sorted (nak_history_ (link w1))).
  { rewrite Hlink1. simpl. by apply requests_sorted. }
  exists w1, w2. split; [done|]. split; [done|]. split; [done|].
  rewrite Hlink2. simpl.
  rewrite (upper_bound_sorted _ _ Hsorted1). simpl.
  rewrite list_elem_of_filter. simpl.
  replace (config_ (link w1)) with (config_ (link w)) by (by rewrite Hlink1).
  split; [by intros [? _]|]. intros Hyoung. by split.
Qed.

(** X13.  One tick of the repair watchdog on a sorted ledger, with a
    positive repair timeout and a clock that does not run backwards
    between the two phases: the tick returns, the ledger is sorted
    afterwards, and every entry it holds is later than the deadline of
    the tick. *)
Theorem on_interval_leaves_no_stale_request now now' w :
  ledger_sorted (nak_history_ (link w)) →
  0 < nak_timeout_ (config_ (link w)) →
  now ≤ now' →
  ∃ w',
    NakWatchdog_on_interval now now' w = Some (tt, w')
    ∧ ledger_sorted (nak_history_ (link w'))
    ∧ Forall (λ e, now - nak_timeout_ (config_ (link w)) < e.1)
             (nak_history_ (link w')).
Proof.
  intros Hsorted Htimeout Hnow.
  destruct (expire_naks_run now w) as (w0 & Hrun0 & Hlink0 & _).
  destruct (send_naks_run now' w0) as (w1 & ms & Hrun1 & Hlink1 & _).
  exists w1. split.
  { unfold NakWatchdog_on_interval. exec. by rewrite Hrun0. }
  assert (Hrest : nak_history_ (link w0)
                  = filter (λ e, now - nak_timeout_ (config_ (link w)) < e.1)
                           (nak_history_ (link w))).
  { rewrite Hlink0. simpl. by rewrite (upper_bound_sorted _ _ Hsorted). }
  split.
  { rewrite Hlink1. simpl. apply requests_sorted. rewrite Hlink0. simpl.
    by apply upper_bound_rest_sorted. }
  rewrite Hlink1. simpl. rewrite requests_Permutation, Hrest.
  apply Forall_app. split.
  - apply Forall_forall. intros e He.
    by apply list_elem_of_filter in He as [He _].
  - apply Forall_forall. intros e He.
    apply list_elem_of_In, in_flat_map in He as (it & _ & He).
    apply list_elem_of_In, list_elem_of_singleton in He as ->. simpl. lia.
Qed.

(** X14.  [synack_received] does not look at the acknowledged flag:
    every handshake acknowledgement addressed to the local peer notifies
    the transport again, so a run of [n] of them calls
    [check_fully_association] [n] times. *)
Theorem synack_notifies_each_time ops w :
  Forall (delivers_synack (local_peer_ (link w))) ops →
  ∃ w',
    run_all ops w = Some (tt, w')
    ∧ notifications (calls w')
      = notifications (calls w) ++ replicate (length ops) tt
    ∧ (ops ≠ [] → acked_ (link w') = true).
Proof.
  unfold run_all. revert w. induction ops as [|op ops IH]; intros w Hops.
  - exists w. simpl. by rewrite app_nil_r.
  - apply Forall_cons in Hops as [Hop Hops].
    destruct (synack_delivered op w Hop) as (w1 & Hrun & Hacked & _ & Hcalls).
    destruct (run_effect op w _ w1 Hrun) as (_ & Hlocal & _).
    rewrite <- Hlocal in Hops.
    destruct (IH w1 Hops) as (w' & Hrest & Hnote & _).
    exists w'. rewrite for_each_cons, Hrun. split; [done|]. split.
    + rewrite Hnote, Hcalls, notifications_app. simpl.
      by rewrite <- app_assoc.
    + intros _. by apply (run_all_acked ops w1 tt w').
Qed.

(** X4.  [header_received] returns for every header; it changes
    nothing of the link but the stored header and the sequence map; the
    map keeps its keys, and only the tracker of the source of the header
    can change; nothing is sent or logged and the environment is not
    consulted. *)
Theorem header_received_frame header w :
  ∃ accepted w',
    header_received header w = Some (accepted, w')
    ∧ link w' =
      set_sequences (sequences_ (link w'))
        (set_recvd_header header (link w))
    ∧ dom (sequences_ (link w')) = dom (sequences_ (link w))
    ∧ (∀ p, p ≠ source_ header →
            sequences_ (link w') !! p = sequences_ (link w) !! p)
    ∧ calls w' = calls w
    ∧ allocations w' = allocations w
    ∧ statuses w' = statuses w.
Proof.
  destruct (header_received_effect header w)
    as (accepted & w' & m' & Hrun & Hlink & Hdom & Hother & Hrest).
  exists accepted, w'. split; [done|]. rewrite Hlink. simpl. done.
Qed.

(** X5.  Before its source has shaken hands a datagram is never taken
    for a duplicate: a header whose source is not in the sequence map is
    accepted, only the stored header changes, and the same header is
    accepted again. *)
Theorem header_received_unknown_repeats header w :
  source_ header ∉ dom (sequences_ (link w)) →
  ∃ w',
    header_received header w = Some (true, w')
    ∧ link w' = set_recvd_header header (link w)
    ∧ header_received header w' = Some (true, w').
Proof.
  intros Hnew. apply not_elem_of_dom in Hnew.
  unfold header_received. exec. rewrite Hnew.
  eexists. split; [done|]. simpl. split; [done|]. by rewrite Hnew.
Qed.

(** X6.  A sample changes the link in two cases only: it is a
    [MULTICAST_SYN] addressed to the local peer from a peer that is not
    tracked yet, which gains a tracker that starts at the sequence number
    of the stored header; or it is a [MULTICAST_SYNACK] addressed to the
    local peer, which sets the acknowledged flag and cancels the
    handshake watchdog.  Data samples, acknowledgements of samples,
    repair requests and their refusals, and unknown control messages
    leave the link as it is. *)
Theorem sample_received_changes_link_only_on_handshake sample w r w' :
  sample_received sample w = Some (r, w') →
  link w' = link w
  ∨ (∃ p,
       delivers_syn (local_peer_ (link w)) p (op_sample_received sample)
       ∧ (p ∉ dom (sequences_ (link w)))
       ∧ link w' =
         set_sequences
           (<[p := DisjointSequence.make (sequence_ (recvd_header_ (link w)))]>
              (sequences_ (link w)))
           (link w))
  ∨ (delivers_synack (local_peer_ (link w)) (op_sample_received sample)
     ∧ link w' = set_acked true (set_syn_watchdog idle (link w))).
Proof.
  destruct sample as [[mid sid] message].
  unfold sample_received. simpl. destruct mid; [destruct sid|..].
  - unfold syn_received.
    destruct message as [|remote_peer [|local_peer rest]]; exec; try done.
    case_bool_decide as Hlocal.
    + intros [= <- <-]. by left.
    + match goal with |- context [send_synack _ ?w0] =>
        destruct (send_synack_calls remote_peer w0)
          as (w1 & a & -> & Hlink & _)
      end.
      intros [= <- <-]. rewrite Hlink. simpl. unfold sequences_insert.
      destruct (sequences_ (link w) !! remote_peer) eqn:Hknown.
      * left. apply set_sequences_id.
      * right. left. exists remote_peer. split; [|split; [|done]].
        -- exists rest. right.
           destruct (decide (local_peer = local_peer_ (link w))); congruence.
        -- by apply not_elem_of_dom.
  - unfold synack_received.
    destruct message as [|remote_peer [|local_peer rest]]; exec; try done.
    case_bool_decide as Hlocal; intros [= <- <-]; [by left|].
    right. right. split; [|done]. exists remote_peer, rest. right.
    destruct (decide (local_peer = local_peer_ (link w))); congruence.
  - members; crunch; by left.
  - members; crunch; by left.
  - crunch; by left.
  - crunch; by left.
  - crunch; by left.
Qed.
End Repair.

(** * The link and its environment *)

Section Environment.

Context {DS : Type} `{!DisjointSequence.Ops DS}.
Implicit Types (w v : World (DS := DS)) (op : Operation).

Lemma expire_loop_link entries w v :
  link v = link w →
  ∃ w' v',
    for_each expire_nak entries w = Some (tt, w')
    ∧ for_each expire_nak entries v = Some (tt, v')
    ∧ link v' = link w'.
Proof.
  revert w v. induction entries as [|[time [peer mark]] entries IH];
    intros w v Hlink.
  - by exists w, v.
  - rewrite !for_each_cons, !expire_nak_run. apply IH. rewrite Hlink.
    destruct (sequences_ (link w) !! peer) as [d|]; [|done].
    destruct (DisjointSequence.value d <? mark); simpl; by rewrite ?Hlink.
Qed.

Lemma expire_naks_link now w v :
  link v = link w →
  ∃ w' v',
    expire_naks now w = Some (tt, w')
    ∧ expire_naks now v = Some (tt, v')
    ∧ link v' = link w'.
Proof.
  intros Hlink. unfold expire_naks. exec. rewrite Hlink.
  destruct (upper_bound _ _).1 as [|entry entries] eqn:Hexpired.
  - by exists w, v.
  - destruct (expire_loop_link (entry :: entries) w v Hlink)
      as (w' & v' & -> & -> & Hlink').
    eexists _, _. split; [done|]. split; [done|]. simpl. by rewrite Hlink'.
Qed.

Lemma send_naks_link now w v :
  link v = link w →
  ∃ w' v',
    send_naks now w = Some (tt, w')
    ∧ send_naks now v = Some (tt, v')
    ∧ link v' = link w'.
Proof.
  intros Hlink.
  destruct (send_naks_run now w) as (w' & ms & Hrun & Hlink' & _).
  destruct (send_naks_run now v) as (v' & ms' & Hrun' & Hlink'' & _).
  exists w', v'. split; [done|]. split; [done|].
  by rewrite Hlink'', Hlink', Hlink.
Qed.

Lemma syn_received_link message w v r w' :
  link v = link w →
  syn_received message w = Some (r, w') →
  ∃ v', syn_received message v = Some (tt, v') ∧ link v' = link w'.
Proof.
  intros Hlink. unfold syn_received.
  destruct message as [|remote_peer [|local_peer rest]]; exec; try done.
  rewrite Hlink. case_bool_decide as Hlocal.
  - intros [= <- <-]. by exists v.
  - repeat match goal with |- context [send_synack _ ?w0] =>
      destruct (send_synack_calls remote_peer w0)
        as (? & ? & -> & ? & _)
    end.
    intros [= <- <-]. eexists. split; [done|]. simpl in *. congruence.
Qed.

Lemma synack_received_link message w v r w' :
  link v = link w →
  synack_received message w = Some (r, w') →
  ∃ v', synack_received message v = Some (tt, v') ∧ link v' = link w'.
Proof.
  intros Hlink. unfold synack_received.
  destruct message as [|remote_peer [|local_peer rest]]; exec; try done.
  rewrite Hlink.
  case_bool_decide as Hlocal; intros [= <- <-];
    (eexists; split; [done|]); simpl; by rewrite ?Hlink.
Qed.

Ltac same :=
  match goal with
  | Hlink : link _ = link _ |- _ =>
      members; exec; rewrite ?Hlink; intros; repeat case_match; simplify_eq;
      try done; eexists; (split; [reflexivity|]); simpl; rewrite ?Hlink; done
  end.

Lemma run_link op w v r w' :
  link v = link w →
  run op w = Some (r, w') →
  ∃ v', run op v = Some (tt, v') ∧ link v' = link w'.
Proof.
  intros Hlink.
  destruct op as [header|[[mid sid] message]| |now|now|message| |message
                 |remote_peer|message|remote_peer low high|message
                 |remote_peer low high|reactor nak_ok syn_ok active|
                 |now now'| | | | |];
    unfold run.
  - same.
  - unfold sample_received. simpl. destruct mid; [destruct sid|..].
    + by apply syn_received_link.
    + by apply synack_received_link.
    + same.
    + same.
    + same.
    + same.
    + same.
  - same.
  - destruct (expire_naks_link now w v Hlink) as (w0 & v' & -> & -> & Hl).
    intros [= <- <-]. by exists v'.
  - destruct (send_naks_link now w v Hlink) as (w0 & v' & -> & -> & Hl).
    intros [= <- <-]. by exists v'.
  - by apply syn_received_link.
  - same.
  - by apply synack_received_link.
  - same.
  - same.
  - same.
  - same.
  - same.
  - same.
  - same.
  - unfold NakWatchdog_on_interval. exec.
    destruct (expire_naks_link now w v Hlink) as (w0 & v0 & -> & -> & Hl).
    destruct (send_naks_link now' w0 v0 Hl) as (w1 & v1 & -> & -> & Hl').
    intros [= <- <-]. by exists v1.
  - same.
  - same.
  - same.
  - same.
  - same.
Qed.

(** X16.  The outcome of buffer allocations and the status of
    [send_control] are reported in the log and nowhere else: two sessions
    that start from the same link and run the same operations end with
    the same link, whatever calls were made before and whatever the
    allocations and the sends return in either. *)
Theorem environment_never_steers_link ops w v r w' :
  link v = link w →
  run_all ops w = Some (r, w') →
  ∃ v', run_all ops v = Some (tt, v') ∧ link v' = link w'.
Proof.
  unfold run_all. revert w v. induction ops as [|op ops IH]; intros w v Hlink.
  - intros [= <- <-]. by exists v.
  - rewrite !for_each_cons.
    destruct (run op w) as [[[] w1]|] eqn:Hop; [|done].
    destruct (run_link op w v _ w1 Hlink Hop) as (v1 & -> & Hlink1).
    by apply IH.
Qed.

Lemma send_synack_sent remote_peer w :
  ∃ w' ms,
    send_synack remote_peer w = Some (tt, w')
    ∧ link w' = link w
    ∧ sent (calls w') = sent (calls w) ++ ms
    ∧ Forall (own_message (local_peer_ (link w))) ms.
Proof.
  destruct (send_synack_run remote_peer w) as (w' & Hrun & Hlink & Hsent & _).
  eexists w', _. split; [done|]. split; [done|]. split; [exact Hsent|].
  destruct (allocates w); repeat constructor; done.
Qed.

Lemma syn_received_sent message w r w' :
  syn_received message w = Some (r, w') →
  ∃ ms,
    sent (calls w') = sent (calls w) ++ ms
    ∧ Forall (own_message (local_peer_ (link w))) ms.
Proof.
  unfold syn_received.
  destruct message as [|remote_peer [|local_peer rest]]; exec; try done.
  case_bool_decide as Hlocal.
  - intros [= <- <-]. exists []. by rewrite app_nil_r.
  - match goal with |- context [send_synack _ ?w0] =>
      destruct (send_synack_sent remote_peer w0)
        as (w1 & ms & -> & _ & Hsent & Hown)
    end.
    intros [= <- <-]. by exists ms.
Qed.

Lemma naks_own local_peer (its : list (MulticastPeer * DS)) ms :
  ms `sublist_of` flat_map (naks_of local_peer) its →
  Forall (own_message local_peer) ms.
Proof.
  intros Hsub. apply Forall_forall. intros m Hm.
  apply (elem_of_sublist _ _ _ Hm) in Hsub. clear Hm. rename Hsub into Hm.
  apply list_elem_of_In, in_flat_map in Hm as (it & _ & Hm).
  apply list_elem_of_In in Hm. unfold naks_of in Hm.
  apply list_elem_of_fmap in Hm as (range & -> & _). done.
Qed.

Lemma run_sent op w r w' :
  run op w = Some (r, w') →
  ∃ ms,
    sent (calls w') = sent (calls w) ++ ms
    ∧ Forall (own_message (local_peer_ (link w))) ms.
Proof.
  assert (Hnone : ∀ cs : list Call, cs = cs ++ []).
  { intros cs. by rewrite app_nil_r. }
  assert (Hexpire : ∀ now w w',
            expire_naks now w = Some (tt, w') →
            sent (calls w') = sent (calls w)
            ∧ local_peer_ (link w') = local_peer_ (link w)).
  { intros now w0 w1 Hrun.
    destruct (expire_naks_run now w0) as (w2 & Hrun0 & Hlink & _ & _ & Hs & _).
    rewrite Hrun0 in Hrun. simplify_eq. split; [done|]. by rewrite Hlink. }
  assert (Hsend : ∀ now w w',
            send_naks now w = Some (tt, w') →
            ∃ ms, sent (calls w') = sent (calls w) ++ ms
                  ∧ Forall (own_message (local_peer_ (link w))) ms).
  { intros now w0 w1 Hrun.
    destruct (send_naks_run now w0) as (w2 & ms & Hrun0 & _ & Hs & Hsub & _).
    rewrite Hrun0 in Hrun. simplify_eq. exists ms. split; [done|].
    by eapply naks_own. }
  assert (Hone : ∀ (cs : list ControlMessage) m,
            own_message (local_peer_ (link w)) m →
            ∃ ms, cs ++ [m] = cs ++ ms
                  ∧ Forall (own_message (local_peer_ (link w))) ms).
  { intros cs m Hm. exists [m]. split; [done|]. by constructor. }
  assert (Hquiet : ∀ cs : list ControlMessage,
            ∃ ms, cs = cs ++ ms
                  ∧ Forall (own_message (local_peer_ (link w))) ms).
  { intros cs. exists []. by rewrite app_nil_r. }
  destruct op as [header|[[mid sid] message]| |now|now|message| |message
                 |remote_peer|message|remote_peer low high|message
                 |remote_peer low high|reactor nak_ok syn_ok active|
                 |now now'| | | | |];
    unfold run.
  - members; crunch.
  - unfold sample_received. simpl. destruct mid; [destruct sid|..].
    + apply syn_received_sent.
    + members; crunch; rewrite ?sent_app; simpl; rewrite ?app_nil_r; done.
    + members; crunch.
    + members; crunch.
    + crunch; rewrite ?sent_app; simpl; rewrite ?app_nil_r; done.
    + crunch; rewrite ?sent_app; simpl; rewrite ?app_nil_r; done.
    + crunch; rewrite ?sent_app; simpl; rewrite ?app_nil_r; done.
  - members; crunch.
  - destruct r. intros Hrun. destruct (Hexpire _ _ _ Hrun) as [-> _]. done.
  - destruct r. apply Hsend.
  - apply syn_received_sent.
  - members; crunch; rewrite ?sent_app; simpl; rewrite ?app_nil_r;
      try done; apply Hone; done.
  - members; crunch; rewrite ?sent_app; simpl; rewrite ?app_nil_r; done.
  - members; crunch; rewrite ?sent_app; simpl; rewrite ?app_nil_r;
      try done; apply Hone; done.
  - members; crunch.
  - members; crunch; rewrite ?sent_app; simpl; rewrite ?app_nil_r;
      try done; apply Hone; done.
  - members; crunch.
  - members; crunch.
  - members; crunch; rewrite ?sent_app; simpl; rewrite ?app_nil_r; done.
  - members; crunch.
  - unfold NakWatchdog_on_interval. exec.
    destruct (expire_naks now w) as [[[] w0]|] eqn:Hrun0; [|done].
    destruct r. intros Hrun.
    destruct (Hexpire _ _ _ Hrun0) as [<- <-]. by apply (Hsend now').
  - members; crunch; rewrite ?sent_app; simpl; rewrite ?app_nil_r;
      try done; apply Hone; done.
  - members; crunch; rewrite ?sent_app; simpl; rewrite ?app_nil_r; done.
  - members; crunch.
  - members; crunch.
  - members; crunch.
Qed.

(** X15.  Every control message that a session hands to
    [send_control] is a [MULTICAST_SYN], a [MULTICAST_SYNACK] or a
    [MULTICAST_NAK] whose first field is the local peer; in particular
    no [MULTICAST_NAKACK] is ever sent. *)
Theorem never_sends_nakack ops w r w' :
  run_all ops w = Some (r, w') →
  ∃ ms,
    sent (calls w') = sent (calls w) ++ ms
    ∧ Forall (own_message (local_peer_ (link w))) ms.
Proof.
  unfold run_all. revert w. induction ops as [|op ops IH]; intros w.
  - intros [= <- <-]. exists []. by rewrite app_nil_r.
  - rewrite for_each_cons.
    destruct (run op w) as [[[] w1]|] eqn:Hop; [|done].
    intros Hrun.
    destruct (run_sent op w _ w1 Hop) as (ms & Hsent & Hown).
    destruct (run_effect op w _ w1 Hop) as (_ & Hlocal & _).
    destruct (IH w1 Hrun) as (ms' & Hsent' & Hown').
    exists (ms ++ ms'). split.
    + by rewrite Hsent', Hsent, <- app_assoc.
    + apply Forall_app. split; [done|]. by rewrite <- Hlocal.
Qed.
End Environment.

(** * The properties at work *)

Module Scenario.

Import Example.

(** An active link whose handshake watchdog cannot be scheduled does not
    join, and its repair watchdog is idle again. *)
Lemma join_i_outcome_witness :
  ∃ w',
    join_i true true false true (world fresh) = Some (false, w')
    ∧ nak_watchdog_ (link w') = idle
    ∧ syn_watchdog_ (link w') = idle
    ∧ sent (calls w') = [].
Proof.
  pose proof (join_i_outcome (world fresh) true true false true
                eq_refl eq_refl) as Hjoin.
  cbv zeta in Hjoin. simpl in Hjoin.
  destruct Hjoin as (w' & Hrun & Hnak & Hsyn & _ & _ & Hsent).
  exists w'. split; [exact Hrun|]. split; [exact Hnak|].
  split; [exact Hsyn | exact Hsent].
Defined.

(** An active link joins and leaves. *)
Lemma join_then_leave_restores_witness :
  ∃ ok w1 w2,
    join_i true true true true (world fresh) = Some (ok, w1)
    ∧ leave_i w1 = Some (tt, w2)
    ∧ link w2 = fresh.
Proof.
  destruct (join_then_leave_restores (world fresh) true true true true
              eq_refl eq_refl) as (ok & w1 & w2 & Hjoin & Hleave & Hlink & _).
  exists ok, w1, w2. split; [exact Hjoin|]. split; [exact Hleave|].
  exact Hlink.
Defined.

(** Peer 1 shakes hands with peer 2. *)
Lemma handshake_round_trip_witness :
  ∃ a1 syn b1 synack a2,
    send_syn (world fresh) = Some (tt, a1)
    ∧ sample_received (deliver syn) (world passive) = Some (tt, b1)
    ∧ 1 ∈ dom (sequences_ (link b1))
    ∧ sample_received (deliver synack) a1 = Some (tt, a2)
    ∧ acked_ (link a2) = true.
Proof.
  destruct (handshake_round_trip (world fresh) (world passive)
              eq_refl eq_refl eq_refl)
    as (a1 & syn & b1 & synack & a2 & Hsyn & _ & Hrecv & _ & Hpeer & Hack
        & Hacked & _).
  exists a1, syn, b1, synack, a2. split; [exact Hsyn|].
  split; [exact Hrecv|]. split; [exact Hpeer|]. split; [exact Hack|].
  exact Hacked.
Defined.

(** A header of the unknown peer 7 is accepted twice. *)
Lemma header_received_unknown_repeats_witness :
  let header := {| source_ := 7; sequence_ := 3 |} in
  ∃ w',
    header_received header (world tracking) = Some (true, w')
    ∧ header_received header w' = Some (true, w').
Proof.
  intros header.
  destruct (header_received_unknown_repeats header (world tracking))
    as (w' & Hrun & _ & Hagain).
  - apply not_elem_of_dom. reflexivity.
  - exists w'. split; [exact Hrun | exact Hagain].
Defined.

(** The handshake request of peer 3 registers it; nothing else of the
    link changes. *)
Lemma sample_received_changes_link_only_on_handshake_witness :
  let sample := deliver (create_control MULTICAST_SYN [3; 1]) in
  ∃ w',
    sample_received sample (world tracking) = Some (tt, w')
    ∧ (link w' = tracking
       ∨ (∃ p,
            delivers_syn 1 p (op_sample_received sample)
            ∧ (p ∉ dom (sequences_ tracking))
            ∧ link w' =
              set_sequences
                (<[p := SequenceTracker.make 0]> (sequences_ tracking))
                tracking)
       ∨ (delivers_synack 1 (op_sample_received sample)
          ∧ link w' = set_acked true (set_syn_watchdog idle tracking))).
Proof.
  intros sample.
  destruct (sample_received sample (world tracking)) as [[[] w']|] eqn:Hrun.
  - exists w'. split; [reflexivity|].
    exact (sample_received_changes_link_only_on_handshake _ _ _ _ Hrun).
  - vm_compute in Hrun. discriminate Hrun.
Defined.

(** Peer 3 shakes hands during a session that tracks peer 2. *)
Lemma peers_registered_only_by_syn_witness :
  let ops := [op_header_received {| source_ := 3; sequence_ := 40 |};
              op_syn_received [3; 1]; op_nak_on_interval 8 8] in
  ∃ w',
    run_all ops (world tracking) = Some (tt, w')
    ∧ dom (sequences_ tracking) ⊆ dom (sequences_ (link w'))
    ∧ ∀ p, p ∈ dom (sequences_ (link w')) →
           p ∉ dom (sequences_ tracking) →
           ∃ op, op ∈ ops ∧ delivers_syn 1 p op.
Proof.
  intros ops.
  destruct (run_all ops (world tracking)) as [[[] w']|] eqn:Hrun.
  - exists w'. split; [reflexivity|].
    exact (peers_registered_only_by_syn _ _ _ _ Hrun).
  - vm_compute in Hrun. discriminate Hrun.
Defined.

(** The same session keeps the identity of the link. *)
Lemma session_identity_fixed_witness :
  let ops := [op_header_received {| source_ := 3; sequence_ := 40 |};
              op_syn_received [3; 1]; op_nak_on_interval 8 8] in
  ∃ w',
    run_all ops (world tracking) = Some (tt, w')
    ∧ config_ (link w') = config
    ∧ local_peer_ (link w') = 1
    ∧ remote_peer_ (link w') = 2.
Proof.
  intros ops.
  destruct (run_all ops (world tracking)) as [[[] w']|] eqn:Hrun.
  - exists w'. split; [reflexivity|].
    exact (session_identity_fixed _ _ _ _ Hrun).
  - vm_compute in Hrun. discriminate Hrun.
Defined.

(** A session of the fresh link: peer 2 shakes hands, a datagram of
    number 5 leaves a gap, and two ticks of the repair watchdog
    follow. *)
Lemma ledger_names_tracked_peers_witness :
  let ops := [op_syn_received [2; 1];
              op_header_received {| source_ := 2; sequence_ := 5 |};
              op_nak_on_interval 4 4; op_nak_on_interval 9 9] in
  ∃ w',
    run_all ops (world fresh) = Some (tt, w')
    ∧ ledger_tracked w'
    ∧ missing_sequences (calls w') = [].
Proof.
  intros ops.
  destruct (run_all ops (world fresh)) as [[[] w']|] eqn:Hrun.
  - exists w'. split; [reflexivity|].
    exact (ledger_names_tracked_peers _ _ _ _ _ _ _ _ _ Hrun).
  - vm_compute in Hrun. discriminate Hrun.
Defined.

(** Two request phases ask peer 2 for the same gap twice. *)
Lemma send_naks_repeats_requests_witness :
  ∃ w1 w2,
    send_naks 10 (world tracking) = Some (tt, w1)
    ∧ send_naks 11 w1 = Some (tt, w2)
    ∧ sent (calls w2)
      = [create_control MULTICAST_NAK [1; 2; 6; 8];
         create_control MULTICAST_NAK [1; 2; 6; 8]]
    ∧ length (nak_history_ (link w2)) = 2%nat.
Proof.
  destruct (send_naks_repeats_requests 10 11 (world tracking) eq_refl)
    as (w1 & w2 & Hrun1 & Hrun2 & Hsent & Hlength).
  exists w1, w2. split; [exact Hrun1|]. split; [exact Hrun2|]. split.
  - rewrite Hsent. vm_compute. reflexivity.
  - rewrite Hlength. vm_compute. reflexivity.
Defined.

(** The request of time 10 survives the expiry of time 12 (deadline 9)
    and not that of time 13 (deadline 10). *)
Lemma request_lifetime_witness :
  (∃ w1 w2,
     send_naks 10 (world tracking) = Some (tt, w1)
     ∧ expire_naks 12 w1 = Some (tt, w2)
     ∧ (10, (2, 9)) ∈ nak_history_ (link w2))
  ∧ (∃ w1 w2,
       send_naks 10 (world tracking) = Some (tt, w1)
       ∧ expire_naks 13 w1 = Some (tt, w2)
       ∧ (10, (2, 9)) ∉ nak_history_ (link w2)).
Proof.
  assert (ledger_sorted (nak_history_ (link (world tracking)))) as Hsorted.
  { constructor. }
  assert (sequences_ (link (world tracking)) !! 2 = Some tracker) as Hpeer.
  { reflexivity. }
  assert (DisjointSequence.disjoint tracker = true) as Hgaps.
  { reflexivity. }
  split.
  - destruct (request_lifetime 10 12 (world tracking) 2 tracker
                Hsorted Hpeer Hgaps)
      as (w1 & w2 & Hrun1 & Hrun2 & _ & Hkept).
    exists w1, w2. split; [exact Hrun1|]. split; [exact Hrun2|].
    apply Hkept. simpl. lia.
  - destruct (request_lifetime 10 13 (world tracking) 2 tracker
                Hsorted Hpeer Hgaps)
      as (w1 & w2 & Hrun1 & Hrun2 & _ & Hkept).
    exists w1, w2. split; [exact Hrun1|]. split; [exact Hrun2|].
    intros Hin. apply Hkept in Hin. simpl in Hin. lia.
Defined.

(** The tick of time 8 on the ledger with requests of times 4 and 10. *)
Lemma on_interval_leaves_no_stale_request_witness :
  ∃ w',
    NakWatchdog_on_interval 8 8 (world repairing) = Some (tt, w')
    ∧ Forall (λ e, 8 - 3 < e.1) (nak_history_ (link w')).
Proof.
  assert (ledger_sorted (nak_history_ (link (world repairing)))) as Hsorted.
  { unfold ledger_sorted. simpl. repeat constructor. simpl. lia. }
  destruct (on_interval_leaves_no_stale_request 8 8 (world repairing) Hsorted)
    as (w' & Hrun & _ & Hfresh).
  - simpl. lia.
  - lia.
  - exists w'. split; [exact Hrun | exact Hfresh].
Defined.

(** Two acknowledgements of peer 2 notify the transport twice. *)
Lemma synack_notifies_each_time_witness :
  ∃ w',
    run_all [op_synack_received [2; 1]; op_synack_received [2; 1]]
      (world fresh) = Some (tt, w')
    ∧ notifications (calls w') = [tt; tt].
Proof.
  destruct (synack_notifies_each_time
              [op_synack_received [2; 1]; op_synack_received [2; 1]]
              (world fresh))
    as (w' & Hrun & Hnote & _).
  - repeat constructor; exists 2, []; left; reflexivity.
  - exists w'. split; [exact Hrun | exact Hnote].
Defined.

(** A session that is asked for repairs sends its handshake request and
    nothing else. *)
Lemma never_sends_nakack_witness :
  let ops := [op_send_syn;
              op_sample_received
                (deliver (create_control MULTICAST_NAK [2; 1; 6; 8]));
              op_nak_received [2; 1; 6; 8]; op_send_nakack 2 6 8] in
  ∃ w' ms,
    run_all ops (world fresh) = Some (tt, w')
    ∧ sent (calls w') = ms
    ∧ Forall (own_message 1) ms.
Proof.
  intros ops.
  destruct (run_all ops (world fresh)) as [[[] w']|] eqn:Hrun.
  - destruct (never_sends_nakack _ _ _ _ Hrun) as (ms & Hsent & Hown).
    exists w', ms. split; [reflexivity|]. split; [exact Hsent | exact Hown].
  - vm_compute in Hrun. discriminate Hrun.
Defined.

(** The session with a failing allocation ends with the link of the
    session without. *)
Lemma environment_never_steers_link_witness :
  let ops := [op_send_naks 10; op_syn_received [3; 1]] in
  ∃ w' v',
    run_all ops (world tracking) = Some (tt, w')
    ∧ run_all ops exhausted = Some (tt, v')
    ∧ link v' = link w'.
Proof.
  intros ops.
  destruct (run_all ops (world tracking)) as [[[] w']|] eqn:Hrun.
  - destruct (environment_never_steers_link ops (world tracking) exhausted
                _ _ eq_refl Hrun) as (v' & Hrun' & Hlink).
    exists w', v'. split; [reflexivity|]. split; [exact Hrun' | exact Hlink].
  - vm_compute in Hrun. discriminate Hrun.
Defined.

End Scenario.
